(** * Deterministic Miller-Rabin on 64-bit unsigned integers

    Shallow embedding of [miller_rabin.c]: the four modular primitives
    [mod_add], [mod_sub], [mod_mul], [mod_pow] and the decision procedure
    [miller_rabin].

    A [uint64_t] is a [Z] in [[0, 2^64)]; every C addition and subtraction
    is written with its wrap-around ([add64], [sub64]).  The C operator [%]
    with a zero divisor is undefined behaviour: [urem] returns [Undefined]
    there.  The [while] loops are recursive functions on a fuel argument and
    return [OutOfFuel] when the fuel runs out before the loop condition turns
    false; the model gives each loop [WIDTH] = 64 units, and the theorems
    show that on 64-bit inputs no loop runs out. *)

From Stdlib Require Import ZArith Zpow_facts List Sorted Lia Bool.
From Stdlib Require Import Zmod.ZmodInv.
Import ListNotations.

Local Open Scope Z_scope.

(** ** Machine integers *)

Module U64.

(** [2 ^ 64], written out so that [wrap] does not recompute the power. *)
Definition modulus : Z := 18446744073709551616.

(** [n] is representable in a [uint64_t]. *)
Definition u64 (n : Z) : Prop := 0 <= n < modulus.

Definition wrap (n : Z) : Z := n mod modulus.

(** Unsigned [+] and [-] of C. *)
Definition add64 (x y : Z) : Z := wrap (x + y).
Definition sub64 (x y : Z) : Z := wrap (x - y).

End U64.
Import U64.

(** ** Outcomes of a C computation *)

Inductive outcome (A : Type) : Type :=
| Ret (v : A)      (* normal return *)
| Undefined        (* undefined behaviour: [%] by zero *)
| OutOfFuel.         (* the fuel of a loop ran out *)

Arguments Ret {A} v.
Arguments Undefined {A}.
Arguments OutOfFuel {A}.

Definition bind {A B : Type} (c : outcome A) (k : A -> outcome B) : outcome B :=
  match c with
  | Ret v => k v
  | Undefined => Undefined
  | OutOfFuel => OutOfFuel
  end.

Notation "x <- c ;; k" := (bind c (fun x => k))
  (at level 61, c at next level, right associativity).

(** The operator [%] on [uint64_t]. *)
Definition urem (x m : Z) : outcome Z :=
  if m =? 0 then Undefined else Ret (x mod m).

(** [returns_below c m]: the computation returns normally, with a value of
    [[0, m)]. *)
Definition returns_below (c : outcome Z) (m : Z) : Prop :=
  exists v, c = Ret v /\ 0 <= v < m.

(** Number of bits of a [uint64_t]; no loop that halves a [uint64_t] runs
    more often. *)
Definition WIDTH : nat := 64.

(** ** ModularArithmetic *)

(** [mod_add], lines 15-25. *)
Definition mod_add (a b m : Z) : outcome Z :=
  let result :=
    if a >=? sub64 m b then sub64 a (sub64 m b)
    else add64 a b in
  urem result m.

(** [mod_sub], lines 31-37. *)
Definition mod_sub (a b m : Z) : outcome Z :=
  if a <? b then urem (sub64 (add64 a m) b) m
  else urem (sub64 a b) m.

(** The [while (b > 0)] loop of [mod_mul], lines 55-61. *)
Fixpoint mod_mul_loop (fuel : nat) (r a b m : Z) : outcome Z :=
  if b >? 0 then
    match fuel with
    | O => OutOfFuel
    | S fuel' =>
        r' <- (if negb (Z.land b 1 =? 0) then mod_add r a m else Ret r) ;;
        let b' := Z.shiftr b 1 in
        a' <- mod_add a a m ;;
        mod_mul_loop fuel' r' a' b' m
    end
  else Ret r.

(** [mod_mul], lines 51-63. *)
Definition mod_mul (a b m : Z) : outcome Z :=
  a0 <- urem a m ;;
  mod_mul_loop WIDTH 0 a0 b m.

(** The [while (b > 0)] loop of [mod_pow], lines 81-87. *)
Fixpoint mod_pow_loop (fuel : nat) (r a b m : Z) : outcome Z :=
  if b >? 0 then
    match fuel with
    | O => OutOfFuel
    | S fuel' =>
        r' <- (if negb (Z.land b 1 =? 0) then mod_mul r a m else Ret r) ;;
        let b' := Z.shiftr b 1 in
        a' <- mod_mul a a m ;;
        mod_pow_loop fuel' r' a' b' m
    end
  else Ret r.

(** [mod_pow], lines 77-89. *)
Definition mod_pow (a b m : Z) : outcome Z :=
  a0 <- urem a m ;;
  mod_pow_loop WIDTH 1 a0 b m.

(** ** PrimalityTester *)

(** Modelled from the spec: [BASELEN] is a macro of [miller_rabin.h], which
    is not among the sources; the spec fixes the base sequence to the 12
    primes of the initialiser of [a]. *)
Definition BASELEN : nat := 12.

(** The constant array [a], line 100. *)
Definition a : list Z := [2; 3; 5; 7; 11; 13; 17; 19; 23; 29; 31; 37].

(** The decomposition loop [while (d % 2 == 0)], lines 117-120. *)
Fixpoint decompose (fuel : nat) (d r : Z) : outcome (Z * Z) :=
  if d mod 2 =? 0 then
    match fuel with
    | O => OutOfFuel
    | S fuel' => decompose fuel' (d / 2) (add64 r 1)
    end
  else Ret (d, r).

(** The squaring loop [for (j = 0; j < r - 1; j++)], lines 131-138; the
    result is the flag [composite] after the loop. *)
Fixpoint square_loop (fuel : nat) (j r x n : Z) : outcome bool :=
  if j <? sub64 r 1 then
    match fuel with
    | O => OutOfFuel
    | S fuel' =>
        x' <- mod_mul x x n ;;
        if x' =? sub64 n 1 then Ret false
        else square_loop fuel' (add64 j 1) r x' n
    end
  else Ret true.

(** How one pass through the body of the base loop ends. *)
Inductive flow : Type :=
| Break              (* [break]: line 125 *)
| Continue           (* [continue], or the end of the body *)
| Return (v : Z).    (* [return v]: line 139 *)

(** The body of the base loop for the base [a_i], lines 124-139. *)
Definition base_body (n d r a_i : Z) : outcome flow :=
  if a_i >? sub64 n 2 then Ret Break
  else
    x <- mod_pow a_i d n ;;
    if (x =? 1) || (x =? sub64 n 1) then Ret Continue
    else
      composite <- square_loop WIDTH 0 r x n ;;
      if composite : bool then Ret (Return 0) else Ret Continue.

(** The base loop [for (i = 0; i < BASELEN; i++)] over the bases still to
    be visited, followed by the final [return 1], lines 123-141. *)
Fixpoint base_loop (bases : list Z) (n d r : Z) : outcome Z :=
  match bases with
  | [] => Ret 1
  | a_i :: rest =>
      f <- base_body n d r a_i ;;
      match f with
      | Break => Ret 1
      | Continue => base_loop rest n d r
      | Return v => Ret v
      end
  end.

(** [miller_rabin], lines 108-142. *)
Definition miller_rabin (n : Z) : outcome Z :=
  if n <? 2 then Ret 0
  else if (n =? 2) || (n =? 3) then Ret 1
  else if n mod 2 =? 0 then Ret 0
  else
    dr <- decompose WIDTH (sub64 n 1) 0 ;;
    let '(d, r) := dr in
    base_loop (firstn BASELEN a) n d r.

(** ** Reference decision of primality

    Not part of the program: [primeb] decides [Z.prime] by trial division,
    and [agrees n] compares the verdict of [miller_rabin] with it. *)

(** [f] holds on the [count] integers from [k] on. *)
Fixpoint forall_from (count : nat) (k : Z) (f : Z -> bool) : bool :=
  match count with
  | O => true
  | S count' => f k && forall_from count' (k + 1) f
  end.

Definition primeb (n : Z) : bool :=
  (1 <? n) && forall_from (Z.to_nat (n - 2)) 2 (fun k => negb (n mod k =? 0)).

Definition agrees (n : Z) : bool :=
  match miller_rabin n with
  | Ret v => Bool.eqb (v =? 1) (primeb n)
  | _ => false
  end.

(** [n], with [n - 1 = d * 2 ^ r], is a strong probable prime to the base
    [b]: the test one base of Miller-Rabin stands for. *)
Definition strong_probable_prime (n d r b : Z) : Prop :=
  b ^ d mod n = 1 \/
  exists j, 0 <= j < r /\ b ^ (d * 2 ^ j) mod n = n - 1.

(** ** Sanity checks on concrete inputs *)

Example mod_add_wraps : mod_add (2^64 - 2) (2^64 - 3) (2^64 - 1) = Ret (2^64 - 4).
Proof. vm_compute. reflexivity. Qed.

Example mod_mul_big :
  mod_mul (2^64 - 2) (2^64 - 3) (2^64 - 1) = Ret (((2^64 - 2) * (2^64 - 3)) mod (2^64 - 1)).
Proof. vm_compute. reflexivity. Qed.

Example mod_pow_small : mod_pow 3 200 1000 = Ret (3 ^ 200 mod 1000).
Proof. vm_compute. reflexivity. Qed.

Example miller_rabin_small :
  map miller_rabin [0; 1; 2; 3; 4; 5; 7; 9; 97; 561; 7919]
  = map Ret [0; 0; 1; 1; 0; 1; 1; 0; 1; 0; 1].
Proof. vm_compute. reflexivity. Qed.

(** ** Facts on machine integers *)

Lemma modulus_eq : modulus = 18446744073709551616.
Proof. reflexivity. Qed.

Lemma modulus_pow : modulus = 2 ^ 64.
Proof. reflexivity. Qed.

Lemma wrap_small n : u64 n -> wrap n = n.
Proof. unfold u64, wrap. intros H. now apply Z.mod_small. Qed.

Lemma wrap_u64 n : u64 (wrap n).
Proof. unfold u64, wrap. apply Z.mod_pos_bound. reflexivity. Qed.

Lemma add64_exact x y : u64 (x + y) -> add64 x y = x + y.
Proof. apply wrap_small. Qed.

Lemma sub64_exact x y : u64 (x - y) -> sub64 x y = x - y.
Proof. apply wrap_small. Qed.

(** A wrapped sum followed by a wrapped difference only wraps once. *)
Lemma sub64_add64 x y z : sub64 (add64 x y) z = wrap (x + y - z).
Proof.
  unfold sub64, add64, wrap.
  now rewrite Zminus_mod_idemp_l.
Qed.

(** Range side conditions. *)
Ltac u64_solve := unfold u64 in *; rewrite ?modulus_eq; lia.

(** ** Helper lemmas on [urem], [mod_add] and [mod_sub] *)

Lemma urem_eq x m : 1 <= m -> urem x m = Ret (x mod m).
Proof.
  intros Hm. unfold urem.
  destruct (Z.eqb_spec m 0) as [E|_]; [lia | reflexivity].
Qed.

Lemma urem_zero x : urem x 0 = Undefined.
Proof. reflexivity. Qed.

Lemma u64_below x m : 0 <= x < m -> u64 m -> u64 x.
Proof. unfold u64. lia. Qed.

(** The three machine operations of [mod_add] are exact on reduced
    operands. *)
Lemma mod_add_no_wrap a b m :
  u64 m -> 0 <= a < m -> 0 <= b < m ->
  sub64 m b = m - b /\
  (m - b <= a -> sub64 a (m - b) = a + b - m) /\
  (a < m - b -> add64 a b = a + b).
Proof.
  intros Hm Ha Hb. unfold u64 in Hm.
  split; [|split].
  - apply sub64_exact. unfold u64. lia.
  - intros Hge. rewrite sub64_exact by (unfold u64; lia). lia.
  - intros Hlt. apply add64_exact. unfold u64. lia.
Qed.

Lemma mod_add_eq a b m :
  u64 m -> 0 <= a < m -> 0 <= b < m ->
  mod_add a b m = Ret ((a + b) mod m).
Proof.
  intros Hm Ha Hb.
  destruct (mod_add_no_wrap a b m Hm Ha Hb) as (Hs & Hge & Hlt).
  unfold mod_add. rewrite Hs, urem_eq by lia. f_equal.
  destruct (Z.geb_spec a (m - b)) as [H|H].
  - rewrite Hge by lia.
    rewrite <- (Z.mod_add (a + b - m) 1 m) by lia. f_equal. lia.
  - now rewrite Hlt by lia.
Qed.

Lemma mod_bound x m : 1 <= m -> 0 <= x mod m < m.
Proof. intros Hm. apply Z.mod_pos_bound. lia. Qed.

Lemma mod_sub_below a b m : 1 <= m -> returns_below (mod_sub a b m) m.
Proof.
  intros Hm. unfold mod_sub, returns_below.
  destruct (a <? b); rewrite urem_eq by lia;
    (eexists; split; [reflexivity | now apply mod_bound]).
Qed.

Lemma mod_sub_eq a b m :
  u64 a -> u64 b -> u64 m -> 1 <= m -> b <= a + m ->
  mod_sub a b m = Ret ((a - b) mod m).
Proof.
  unfold u64. intros Ha Hb Hm Hm1 Hle. unfold mod_sub.
  destruct (Z.ltb_spec a b) as [Hlt|Hge]; rewrite urem_eq by lia; f_equal.
  - rewrite sub64_add64, wrap_small by (unfold u64; lia).
    rewrite <- (Z.mod_add (a - b) 1 m) by lia. f_equal. lia.
  - now rewrite sub64_exact by (unfold u64; lia).
Qed.

(** ** The claims on [mod_add] and [mod_sub] *)

(** C2: for 64-bit [a], [b], [m] with [a < m] and [b < m], [mod_add a b m]
    returns [(a + b) mod m], and no machine operation on the way wraps
    around: [m - b] is exact, the branch [a >= m - b] computes
    [a - (m - b) = a + b - m] exactly, and the other branch computes [a + b]
    exactly. *)
Theorem mod_add_correct a b m :
  u64 a -> u64 b -> u64 m -> a < m -> b < m ->
  mod_add a b m = Ret ((a + b) mod m) /\
  sub64 m b = m - b /\
  (a >= m - b -> sub64 a (sub64 m b) = a - (m - b)) /\
  (a < m - b -> add64 a b = a + b).
Proof.
  unfold u64. intros Ha Hb Hm Ham Hbm.
  assert (Hm' : u64 m) by exact Hm.
  destruct (mod_add_no_wrap a b m Hm') as (Hs & Hge & Hlt); try lia.
  split; [apply mod_add_eq; auto; lia|].
  split; [exact Hs|]. split.
  - intros H. rewrite Hs, Hge by lia. lia.
  - exact Hlt.
Qed.

Lemma mod_add_correct_witness :
  mod_add (2^64 - 2) (2^64 - 3) (2^64 - 1) = Ret (((2^64 - 2) + (2^64 - 3)) mod (2^64 - 1)) /\
  sub64 (2^64 - 1) (2^64 - 3) = (2^64 - 1) - (2^64 - 3) /\
  ((2^64 - 2) >= (2^64 - 1) - (2^64 - 3) ->
     sub64 (2^64 - 2) (sub64 (2^64 - 1) (2^64 - 3)) = (2^64 - 2) - ((2^64 - 1) - (2^64 - 3))) /\
  ((2^64 - 2) < (2^64 - 1) - (2^64 - 3) -> add64 (2^64 - 2) (2^64 - 3) = (2^64 - 2) + (2^64 - 3)).
Proof.
  apply (mod_add_correct (2^64 - 2) (2^64 - 3) (2^64 - 1));
    u64_solve.
Defined.

(** C3, as stated, fails: with [a = 0], [b = 5], [m = 3] the sum [a + m - b]
    is negative and wraps to [2^64 - 2], whose remainder is [2], whereas
    [(0 - 5) mod 3 = 1]. *)
Lemma mod_sub_any_operands_counterexample :
  u64 0 /\ u64 5 /\ u64 3 /\ 1 <= 3 /\
  mod_sub 0 5 3 = Ret 2 /\ (0 - 5) mod 3 = 1 /\
  mod_sub 0 5 3 <> Ret ((0 - 5) mod 3).
Proof.
  unfold u64. rewrite modulus_eq.
  repeat split; try lia; try reflexivity.
  vm_compute. discriminate.
Qed.

(** C3, amended: for 64-bit [a], [b] and [m >= 1], [mod_sub a b m] returns a
    value of [[0, m)], and that value is [(a - b) mod m] whenever
    [b <= a + m] (so whenever [a >= b], and whenever both operands are
    reduced). *)
Theorem mod_sub_correct a b m :
  u64 a -> u64 b -> u64 m -> 1 <= m ->
  returns_below (mod_sub a b m) m /\
  (b <= a + m -> mod_sub a b m = Ret ((a - b) mod m)).
Proof.
  intros Ha Hb Hm Hm1. split.
  - now apply mod_sub_below.
  - now apply mod_sub_eq.
Qed.

Lemma mod_sub_correct_witness :
  returns_below (mod_sub 2 5 7) 7 /\
  (5 <= 2 + 7 -> mod_sub 2 5 7 = Ret ((2 - 5) mod 7)).
Proof.
  apply (mod_sub_correct 2 5 7); u64_solve.
Defined.

(** C8: for 64-bit [a], [b], [m] with [a < m] and [b < m], subtracting [b]
    from [mod_add a b m] with [mod_sub] gives back [a]. *)
Theorem mod_sub_mod_add a b m :
  u64 a -> u64 b -> u64 m -> a < m -> b < m ->
  (s <- mod_add a b m ;; mod_sub s b m) = Ret a.
Proof.
  intros Ha Hb Hm Ham Hbm.
  assert (Hm1 : 1 <= m) by (unfold u64 in *; lia).
  rewrite mod_add_eq by (unfold u64 in *; auto; lia). cbn [bind].
  pose proof (mod_bound (a + b) m Hm1) as Hs.
  rewrite mod_sub_eq; auto; try (unfold u64 in *; lia).
  f_equal. rewrite Zminus_mod_idemp_l.
  replace (a + b - b) with a by lia.
  apply Z.mod_small. unfold u64 in *; lia.
Qed.

Lemma mod_sub_mod_add_witness :
  (s <- mod_add (2^64 - 2) (2^64 - 3) (2^64 - 1) ;; mod_sub s (2^64 - 3) (2^64 - 1))
  = Ret (2^64 - 2).
Proof.
  apply (mod_sub_mod_add (2^64 - 2) (2^64 - 3) (2^64 - 1));
    u64_solve.
Defined.

(** ** The loops of [mod_mul] and [mod_pow] *)

(** [b & 1] and [b >> 1] in arithmetic terms. *)
Lemma land_1 b : Z.land b 1 = b mod 2.
Proof. exact (Z.land_ones b 1 ltac:(lia)). Qed.

Lemma shiftr_1 b : Z.shiftr b 1 = b / 2.
Proof. exact (Z.shiftr_div_pow2 b 1 ltac:(lia)). Qed.

Lemma half_fuel b fuel :
  0 <= b < 2 ^ Z.of_nat (S fuel) -> 0 <= b / 2 < 2 ^ Z.of_nat fuel.
Proof.
  rewrite Nat2Z.inj_succ, Z.pow_succ_r by lia. intros Hb. split.
  - apply Z.div_pos; lia.
  - apply Z.div_lt_upper_bound; lia.
Qed.

Lemma u64_fuel b : u64 b -> 0 <= b < 2 ^ Z.of_nat WIDTH.
Proof. unfold u64. now rewrite modulus_eq. Qed.

(** Case analysis on the lowest bit of a positive [b]. *)
Lemma low_bit_cases b :
  0 < b ->
  exists q, b / 2 = q /\
    ((b mod 2 = 1 /\ b = 2 * q + 1) \/ (b mod 2 = 0 /\ b = 2 * q /\ 0 < q)).
Proof.
  intros Hb. exists (b / 2). split; [reflexivity|].
  pose proof (Z.div_mod b 2 ltac:(lia)) as E.
  pose proof (Z.mod_pos_bound b 2 ltac:(lia)) as B.
  assert (C : b mod 2 = 0 \/ b mod 2 = 1) by lia.
  destruct C as [C|C]; [right | left]; lia.
Qed.

Lemma add_mul_mod r a q m :
  (r mod m + (a mod m) * q) mod m = (r + a * q) mod m.
Proof.
  rewrite Zplus_mod_idemp_l, <- Zplus_mod_idemp_r, Zmult_mod_idemp_l.
  now rewrite Zplus_mod_idemp_r.
Qed.

(** Invariant of the double-and-add loop: [r + a * b] modulo [m]. *)
Lemma mod_mul_loop_eq fuel : forall r a b m,
  u64 m -> 0 <= r < m -> 0 <= a < m -> 0 <= b < 2 ^ Z.of_nat fuel ->
  mod_mul_loop fuel r a b m = Ret ((r + a * b) mod m).
Proof.
  induction fuel as [|fuel IH]; intros r a b m Hm Hr Ha Hb.
  - assert (b = 0) by (cbn in Hb; lia). subst b. cbn.
    rewrite Z.mul_0_r, Z.add_0_r, Z.mod_small by lia. reflexivity.
  - cbn [mod_mul_loop].
    destruct (Z.gtb_spec b 0) as [Hpos|Hz].
    + rewrite land_1, shiftr_1.
      assert (Hh := half_fuel b fuel Hb).
      assert (Hm1 : 1 <= m) by lia.
      assert (Ha' := mod_bound (a + a) m Hm1).
      destruct (low_bit_cases b Hpos) as (q & Eq & [[Hodd Eb]|[Hev [Eb _]]]);
        rewrite Eq in *.
      * rewrite Hodd. cbn [Z.eqb negb].
        rewrite mod_add_eq by auto. cbn [bind].
        rewrite mod_add_eq by auto. cbn [bind].
        rewrite IH by (auto using mod_bound).
        rewrite add_mul_mod. do 2 f_equal. rewrite Eb. ring.
      * rewrite Hev. cbn [Z.eqb negb bind].
        rewrite mod_add_eq by auto. cbn [bind].
        rewrite IH by auto.
        rewrite <- (Z.mod_small r m) at 1 by lia.
        rewrite add_mul_mod. do 2 f_equal. rewrite Eb. ring.
    + assert (b = 0) by lia. subst b.
      rewrite Z.mul_0_r, Z.add_0_r, Z.mod_small by lia. reflexivity.
Qed.

Lemma mod_mul_eq a b m :
  0 <= a -> u64 b -> u64 m -> 1 <= m ->
  mod_mul a b m = Ret ((a * b) mod m).
Proof.
  intros Ha Hb Hm Hm1. unfold mod_mul.
  rewrite urem_eq by lia. cbn [bind].
  rewrite mod_mul_loop_eq; auto using mod_bound, u64_fuel; try lia.
  f_equal. rewrite Z.add_0_l. apply Zmult_mod_idemp_l.
Qed.

Lemma sq_pow_mod r a q m :
  0 < m -> 0 <= q ->
  (r * ((a * a) mod m) ^ q) mod m = (r * a ^ (2 * q)) mod m.
Proof.
  intros Hm Hq.
  rewrite <- Zmult_mod_idemp_r, <- Zpower_mod, Zmult_mod_idemp_r by lia.
  now rewrite Z.pow_mul_r, Z.pow_2_r by lia.
Qed.

(** Invariant of the square-and-multiply loop: [r * a ^ b] modulo [m]; when
    the loop is not entered [r] is returned as it is. *)
Lemma mod_pow_loop_eq fuel : forall r a b m,
  u64 m -> 1 <= m -> 0 <= r -> u64 a -> 0 <= b < 2 ^ Z.of_nat fuel ->
  mod_pow_loop fuel r a b m = Ret (if b =? 0 then r else (r * a ^ b) mod m).
Proof.
  induction fuel as [|fuel IH]; intros r a b m Hm Hm1 Hr Ha Hb.
  - assert (b = 0) by (cbn in Hb; lia). subst b. reflexivity.
  - cbn [mod_pow_loop].
    destruct (Z.gtb_spec b 0) as [Hpos|Hz].
    + rewrite land_1, shiftr_1.
      assert (Hh := half_fuel b fuel Hb).
      assert (Haa := mod_bound (a * a) m Hm1).
      assert (Hra := mod_bound (r * a) m Hm1).
      assert (Haa64 : u64 (a * a mod m)) by (unfold u64 in *; lia).
      destruct (Z.eqb_spec b 0) as [E|_]; [lia|].
      rewrite (mod_mul_eq a a m) by (unfold u64 in *; auto; lia).
      destruct (low_bit_cases b Hpos) as (q & Eq & [[Hodd Eb]|[Hev [Eb Hq]]]);
        rewrite Eq in *.
      * rewrite Hodd. cbn [Z.eqb negb].
        rewrite mod_mul_eq by auto. cbn [bind].
        rewrite IH by (auto; lia). f_equal.
        destruct (Z.eqb_spec q 0) as [E|NE].
        -- rewrite Eb, E. now rewrite Z.pow_1_r.
        -- rewrite sq_pow_mod, Zmult_mod_idemp_l by lia.
           f_equal. rewrite Eb.
           rewrite Z.pow_add_r, Z.pow_1_r by lia. ring.
      * rewrite Hev. cbn [Z.eqb negb bind].
        rewrite IH by auto. f_equal.
        destruct (Z.eqb_spec q 0) as [E|NE]; [lia|].
        rewrite sq_pow_mod by lia. now rewrite <- Eb.
    + assert (b = 0) by lia. subst b. reflexivity.
Qed.

Lemma mod_pow_eq a b m :
  u64 a -> u64 b -> u64 m -> 1 <= m ->
  mod_pow a b m = Ret (if b =? 0 then 1 else (a ^ b) mod m).
Proof.
  intros Ha Hb Hm Hm1. unfold mod_pow.
  rewrite urem_eq by lia. cbn [bind].
  assert (Ham := mod_bound a m Hm1).
  rewrite mod_pow_loop_eq; auto using u64_fuel; try lia.
  - f_equal. destruct (b =? 0); [reflexivity|].
    rewrite Z.mul_1_l. symmetry. apply Zpower_mod. lia.
  - unfold u64 in *. lia.
Qed.

(** ** The claims on [mod_mul] and [mod_pow] *)

(** C4: for 64-bit [a], [b] and [m >= 1], [mod_mul a b m] returns
    [(a * b) mod m].  The loop only adds with [mod_add], whose wrap-around
    is part of the model: an overflow that changed the result would falsify
    the equation. *)
Theorem mod_mul_correct a b m :
  u64 a -> u64 b -> u64 m -> 1 <= m ->
  mod_mul a b m = Ret ((a * b) mod m).
Proof.
  intros Ha Hb Hm Hm1. apply mod_mul_eq; auto. apply Ha.
Qed.

Lemma mod_mul_correct_witness :
  mod_mul (2^64 - 2) (2^64 - 3) (2^64 - 1)
  = Ret (((2^64 - 2) * (2^64 - 3)) mod (2^64 - 1)).
Proof.
  apply (mod_mul_correct (2^64 - 2) (2^64 - 3) (2^64 - 1));
    u64_solve.
Defined.

(** C5, as stated, fails at [m = 1], [b = 0]: the loop is not entered and
    the initial [r = 1] is returned unreduced, whereas [(a ^ 0) mod 1 = 0]. *)
Lemma mod_pow_modulus_one_counterexample :
  u64 0 /\ u64 1 /\ 1 <= 1 /\
  mod_pow 0 0 1 = Ret 1 /\ (0 ^ 0) mod 1 = 0 /\
  mod_pow 0 0 1 <> Ret ((0 ^ 0) mod 1).
Proof.
  unfold u64. rewrite modulus_eq.
  repeat split; try lia; try reflexivity.
  vm_compute. discriminate.
Qed.

(** C5, amended: for 64-bit [a], [b] and [m >= 1], [mod_pow a b m] returns
    [1] when [b = 0], and returns [(a ^ b) mod m] whenever [b >= 1] or
    [m >= 2]. *)
Theorem mod_pow_correct a b m :
  u64 a -> u64 b -> u64 m -> 1 <= m ->
  (b = 0 -> mod_pow a b m = Ret 1) /\
  (1 <= b \/ 2 <= m -> mod_pow a b m = Ret ((a ^ b) mod m)).
Proof.
  intros Ha Hb Hm Hm1. rewrite mod_pow_eq by auto. split.
  - intros ->. reflexivity.
  - intros H. destruct (Z.eqb_spec b 0) as [E|NE]; [|reflexivity].
    subst b. rewrite Z.pow_0_r, Z.mod_small by lia. reflexivity.
Qed.

Lemma mod_pow_correct_witness :
  (200 = 0 -> mod_pow 3 200 1000 = Ret 1) /\
  (1 <= 200 \/ 2 <= 1000 -> mod_pow 3 200 1000 = Ret ((3 ^ 200) mod 1000)).
Proof.
  apply (mod_pow_correct 3 200 1000); u64_solve.
Defined.

(** C6, as stated, fails for [mod_pow]: [mod_pow 0 0 1] returns [1], which
    is not in [[0, 1)]. *)
Lemma range_invariant_counterexample :
  u64 0 /\ u64 1 /\ 1 <= 1 /\
  mod_pow 0 0 1 = Ret 1 /\ ~ returns_below (mod_pow 0 0 1) 1.
Proof.
  unfold u64. rewrite modulus_eq.
  repeat split; try lia.
  intros (v & E & Hv). vm_compute in E. injection E as <-. lia.
Qed.

(** C6, amended: for 64-bit [a], [b] and [m >= 1] the results of [mod_add],
    [mod_sub] and [mod_mul] lie in [[0, m)] (for [mod_add] even without
    [a < m] and [b < m]), and so does the result of [mod_pow] whenever
    [b >= 1] or [m >= 2]. *)
Theorem range_invariant a b m :
  u64 a -> u64 b -> u64 m -> 1 <= m ->
  returns_below (mod_add a b m) m /\
  returns_below (mod_sub a b m) m /\
  returns_below (mod_mul a b m) m /\
  (1 <= b \/ 2 <= m -> returns_below (mod_pow a b m) m).
Proof.
  intros Ha Hb Hm Hm1. unfold returns_below. repeat split.
  - unfold mod_add. rewrite urem_eq by lia.
    eexists; split; [reflexivity | now apply mod_bound].
  - now apply mod_sub_below.
  - rewrite mod_mul_eq by (auto; apply Ha).
    eexists; split; [reflexivity | now apply mod_bound].
  - intros H. rewrite mod_pow_eq by auto.
    eexists; split; [reflexivity|].
    destruct (Z.eqb_spec b 0); [lia | now apply mod_bound].
Qed.

Lemma range_invariant_witness :
  returns_below (mod_add 6 5 7) 7 /\
  returns_below (mod_sub 6 5 7) 7 /\
  returns_below (mod_mul 6 5 7) 7 /\
  (1 <= 5 \/ 2 <= 7 -> returns_below (mod_pow 6 5 7) 7).
Proof.
  apply (range_invariant 6 5 7); u64_solve.
Defined.

(** C10: for 64-bit [a], [b] and [m >= 1], [mod_mul] and [mod_pow] return
    the same value on [a] and on [a mod m]: both reduce their first operand
    before the loop. *)
Theorem first_operand_reduced a b m :
  u64 a -> u64 b -> u64 m -> 1 <= m ->
  (exists v, mod_mul a b m = Ret v /\ mod_mul (a mod m) b m = Ret v) /\
  (exists v, mod_pow a b m = Ret v /\ mod_pow (a mod m) b m = Ret v).
Proof.
  intros Ha Hb Hm Hm1.
  assert (Ham : u64 (a mod m)).
  { apply (u64_below _ m); auto using mod_bound. }
  split.
  - exists ((a * b) mod m).
    rewrite !mod_mul_eq by (auto; apply Ha || apply Ham).
    now rewrite Zmult_mod_idemp_l.
  - exists (if b =? 0 then 1 else (a ^ b) mod m).
    rewrite !mod_pow_eq by auto.
    now rewrite <- Zpower_mod by lia.
Qed.

Lemma first_operand_reduced_witness :
  (exists v, mod_mul 100 9 7 = Ret v /\ mod_mul (100 mod 7) 9 7 = Ret v) /\
  (exists v, mod_pow 100 9 7 = Ret v /\ mod_pow (100 mod 7) 9 7 = Ret v).
Proof.
  apply (first_operand_reduced 100 9 7); u64_solve.
Defined.

(** ** The loops of [miller_rabin] *)

(** The decomposition loop leaves [d = d' * 2 ^ k] with [d'] odd, after
    [k] halvings, and needs no more fuel than [d] has bits. *)
Lemma decompose_eq fuel : forall d r,
  0 < d < 2 ^ Z.of_nat fuel -> 0 <= r -> r + Z.of_nat fuel < modulus ->
  exists d' k,
    decompose fuel d r = Ret (d', r + k) /\
    0 <= k < Z.of_nat fuel /\ d = d' * 2 ^ k /\ d' mod 2 = 1.
Proof.
  induction fuel as [|fuel IH]; intros d r Hd Hr Hfuel.
  - cbn in Hd. lia.
  - cbn [decompose].
    pose proof (Z.mod_pos_bound d 2 ltac:(lia)) as Hbit.
    destruct (Z.eqb_spec (d mod 2) 0) as [Hev|Hodd].
    + pose proof (Z.div_mod d 2 ltac:(lia)) as Ed.
      rewrite add64_exact by (unfold u64; lia).
      destruct (IH (d / 2) (r + 1)) as (d' & k & E & Hk & Ed' & Hd'); try lia.
      { split; [lia|]. apply half_fuel. lia. }
      exists d', (k + 1). rewrite E. split; [f_equal; f_equal; lia|].
      split; [lia|]. split; [|exact Hd'].
      rewrite Z.pow_add_r, Z.pow_1_r by lia. lia.
    + exists d, 0. rewrite Z.add_0_r, Z.pow_0_r.
      repeat split; lia.
Qed.

(** For an odd [n >= 5] the decomposition of [n - 1] is found, with
    [1 <= r <= 63]. *)
Lemma decompose_pred n :
  u64 n -> 3 < n -> n mod 2 = 1 ->
  exists d r,
    decompose WIDTH (sub64 n 1) 0 = Ret (d, r) /\
    1 <= r <= 63 /\ 0 < d < n /\ n - 1 = d * 2 ^ r /\ d mod 2 = 1.
Proof.
  intros Hn Hn3 Hodd. unfold u64 in Hn.
  rewrite sub64_exact by (unfold u64; lia).
  destruct (decompose_eq WIDTH (n - 1) 0) as (d & k & E & Hk & Ed & Hd).
  { change (2 ^ Z.of_nat WIDTH) with modulus. lia. }
  { lia. }
  { rewrite modulus_eq. cbn. lia. }
  exists d, k. rewrite Z.add_0_l in E. split; [exact E|].
  assert (Hk0 : k <> 0).
  { intros ->. rewrite Z.pow_0_r, Z.mul_1_r in Ed. subst d.
    pose proof (Z.div_mod n 2 ltac:(lia)) as En.
    pose proof (Z.div_mod (n - 1) 2 ltac:(lia)) as En1. lia. }
  assert (Hpow : 2 <= 2 ^ k).
  { replace k with (k - 1 + 1) by lia.
    rewrite Z.pow_add_r, Z.pow_1_r by lia.
    pose proof (Z.pow_pos_nonneg 2 (k - 1) ltac:(lia) ltac:(lia)). lia. }
  cbn in Hk.
  repeat split; try lia; try nia.
Qed.

(** The squaring loop ends within [r - 1] passes. *)
Lemma square_loop_returns fuel : forall j r x n,
  u64 n -> 1 <= n -> u64 x -> 1 <= r <= 63 -> 0 <= j ->
  r - 1 - j <= Z.of_nat fuel ->
  exists composite, square_loop fuel j r x n = Ret composite.
Proof.
  induction fuel as [|fuel IH]; intros j r x n Hn Hn1 Hx Hr Hj Hfuel;
    cbn [square_loop];
    rewrite (sub64_exact r 1) by (unfold u64; rewrite modulus_eq; lia);
    destruct (Z.ltb_spec j (r - 1)) as [Hlt|Hge];
    try (now eexists); try lia.
  rewrite mod_mul_eq by (auto; apply Hx). cbn [bind].
  destruct (_ =? _); [now eexists|].
  rewrite add64_exact by (unfold u64; rewrite modulus_eq; lia).
  apply IH; auto; try lia.
  apply (u64_below _ n); auto using mod_bound.
Qed.

(** One pass through the body of the base loop ends in [break], in
    [continue] or in [return 0]. *)
Lemma base_body_returns n d r a_i :
  u64 n -> 1 <= n -> u64 d -> 1 <= r <= 63 -> u64 a_i ->
  base_body n d r a_i = Ret Break \/
  base_body n d r a_i = Ret Continue \/
  base_body n d r a_i = Ret (Return 0).
Proof.
  intros Hn Hn1 Hd Hr Ha. unfold base_body.
  destruct (_ >? _); [now left|].
  rewrite mod_pow_eq by auto. cbn [bind].
  destruct (_ || _); [now right; left|].
  set (x := if d =? 0 then 1 else a_i ^ d mod n).
  assert (Hx : u64 x).
  { subst x. destruct (d =? 0).
    - unfold u64. rewrite modulus_eq. lia.
    - apply (u64_below _ n); auto using mod_bound. }
  destruct (square_loop_returns WIDTH 0 r x n Hn Hn1 Hx Hr) as (c & E);
    [lia | change (Z.of_nat WIDTH) with 64; lia |].
  rewrite E. cbn [bind]. destruct c; auto.
Qed.

Lemma base_loop_returns bases : forall n d r,
  u64 n -> 1 <= n -> u64 d -> 1 <= r <= 63 -> Forall u64 bases ->
  base_loop bases n d r = Ret 0 \/ base_loop bases n d r = Ret 1.
Proof.
  induction bases as [|a_i rest IH]; intros n d r Hn Hn1 Hd Hr Hb;
    cbn [base_loop]; [now right|].
  inversion Hb as [|? ? Ha Hrest]; subst.
  destruct (base_body_returns n d r a_i) as [E|[E|E]]; auto;
    rewrite E; cbn [bind]; auto.
Qed.

Lemma bases_u64 : Forall u64 (firstn BASELEN a).
Proof.
  unfold u64. rewrite modulus_eq. cbn [firstn BASELEN a].
  repeat (constructor; [lia|]). constructor.
Qed.

Lemma miller_rabin_returns n :
  u64 n -> miller_rabin n = Ret 0 \/ miller_rabin n = Ret 1.
Proof.
  intros Hn. unfold miller_rabin.
  destruct (Z.ltb_spec n 2) as [_|Hn2]; [now left|].
  destruct (_ || _) eqn:E23; [now right|].
  apply orb_false_iff in E23. destruct E23 as [E2 E3].
  apply Z.eqb_neq in E2, E3.
  destruct (Z.eqb_spec (n mod 2) 0) as [_|Hodd]; [now left|].
  pose proof (Z.mod_pos_bound n 2 ltac:(lia)) as Hbit.
  destruct (decompose_pred n) as (d & r & E & Hr & Hd & _); auto; try lia.
  rewrite E. cbn [bind].
  apply base_loop_returns; auto using bases_u64; try lia.
  unfold u64 in *. lia.
Qed.

(** A base above [n - 2] ends the pass with [break]. *)
Lemma base_body_break n d r a_i :
  a_i > sub64 n 2 -> base_body n d r a_i = Ret Break.
Proof.
  intros H. unfold base_body.
  destruct (Z.gtb_spec a_i (sub64 n 2)); [reflexivity | lia].
Qed.

(** Once a pass ends with [break], the bases behind it play no role. *)
Lemma base_loop_break_indep pre : forall n d r a_i rest rest',
  base_body n d r a_i = Ret Break ->
  base_loop (pre ++ a_i :: rest) n d r = base_loop (pre ++ a_i :: rest') n d r.
Proof.
  induction pre as [|b pre IH]; intros n d r a_i rest rest' Hbrk; cbn.
  - now rewrite Hbrk.
  - destruct (base_body n d r b) as [[| |v]| |]; cbn; auto.
Qed.

(** A [break] after passes that never ended in [return 0] leads to the
    final [return 1]. *)
Lemma base_loop_break_prime pre : forall n d r a_i rest,
  u64 n -> 1 <= n -> u64 d -> 1 <= r <= 63 -> Forall u64 pre ->
  Forall (fun b => base_body n d r b <> Ret (Return 0)) pre ->
  base_body n d r a_i = Ret Break ->
  base_loop (pre ++ a_i :: rest) n d r = Ret 1.
Proof.
  induction pre as [|b pre IH];
    intros n d r a_i rest Hn Hn1 Hd Hr Hpre Hok Hbrk; cbn.
  - now rewrite Hbrk.
  - inversion Hpre as [|? ? Hb Hpre']; subst.
    inversion Hok as [|? ? Hb0 Hok']; subst.
    destruct (base_body_returns n d r b) as [E|[E|E]]; auto;
      rewrite E; cbn [bind]; auto; contradiction.
Qed.

(** ** The fuel is not observable

    A loop that returns with some fuel returns the same value with any
    larger fuel: [WIDTH] only has to be large enough. *)

Ltac fuel_step IH :=
  repeat match goal with
  | |- bind ?c _ = Ret _ -> _ =>
      destruct c; cbn [bind]; try discriminate
  | |- (if ?c then _ else _) = Ret _ -> _ =>
      destruct c; try discriminate; auto
  end;
  try (apply IH; lia).

Lemma mod_mul_loop_more_fuel f : forall f' r a b m v,
  (f <= f')%nat ->
  mod_mul_loop f r a b m = Ret v -> mod_mul_loop f' r a b m = Ret v.
Proof.
  induction f as [|f IH]; intros [|f'] r a b m v Hle; cbn [mod_mul_loop];
    try lia; auto; destruct (b >? 0); try discriminate; auto.
  fuel_step IH.
Qed.

Lemma mod_pow_loop_more_fuel f : forall f' r a b m v,
  (f <= f')%nat ->
  mod_pow_loop f r a b m = Ret v -> mod_pow_loop f' r a b m = Ret v.
Proof.
  induction f as [|f IH]; intros [|f'] r a b m v Hle; cbn [mod_pow_loop];
    try lia; auto; destruct (b >? 0); try discriminate; auto.
  fuel_step IH.
Qed.

Lemma decompose_more_fuel f : forall f' d r v,
  (f <= f')%nat ->
  decompose f d r = Ret v -> decompose f' d r = Ret v.
Proof.
  induction f as [|f IH]; intros [|f'] d r v Hle; cbn [decompose];
    try lia; auto; destruct (d mod 2 =? 0); try discriminate; auto.
  apply IH; lia.
Qed.

Lemma square_loop_more_fuel f : forall f' j r x n v,
  (f <= f')%nat ->
  square_loop f j r x n = Ret v -> square_loop f' j r x n = Ret v.
Proof.
  induction f as [|f IH]; intros [|f'] j r x n v Hle; cbn [square_loop];
    try lia; auto; destruct (j <? sub64 r 1); try discriminate; auto.
  fuel_step IH.
Qed.

(** ** The claims on [miller_rabin] *)

(** C7: let [n > 3] be odd and 64-bit, with decomposition [(d, r)], and let
    the base loop meet a base [a_i > n - 2] after the bases [pre], none of
    which ended its pass with [return 0].  Then the bases [rest] behind
    [a_i] have no influence on the loop (any other bases in their place
    give the same result), and [miller_rabin n] returns [1]. *)
Theorem early_exit_is_prime n d r pre a_i rest :
  u64 n -> 3 < n -> n mod 2 = 1 ->
  decompose WIDTH (sub64 n 1) 0 = Ret (d, r) ->
  firstn BASELEN a = pre ++ a_i :: rest ->
  a_i > n - 2 ->
  Forall (fun b => base_body n d r b <> Ret (Return 0)) pre ->
  (forall rest',
     base_loop (pre ++ a_i :: rest) n d r = base_loop (pre ++ a_i :: rest') n d r) /\
  miller_rabin n = Ret 1.
Proof.
  intros Hn Hn3 Hodd Hdec Hbases Hgt Hpre.
  assert (Hbrk : base_body n d r a_i = Ret Break).
  { apply base_body_break. rewrite sub64_exact by (unfold u64 in *; lia). lia. }
  split; [intros rest'; now apply base_loop_break_indep|].
  destruct (decompose_pred n Hn Hn3 Hodd) as (d0 & r0 & E & Hr & Hd & _).
  rewrite Hdec in E. injection E as <- <-.
  unfold miller_rabin.
  destruct (Z.ltb_spec n 2); [lia|].
  destruct (Z.eqb_spec n 2); [lia|]. destruct (Z.eqb_spec n 3); [lia|].
  rewrite Hodd, Hdec. cbn [Z.eqb orb bind]. rewrite Hbases.
  pose proof bases_u64 as Hu. rewrite Hbases in Hu.
  apply Forall_app in Hu. destruct Hu as [Hu _].
  apply base_loop_break_prime; auto; unfold u64 in *; lia.
Qed.

Lemma early_exit_is_prime_witness :
  (forall rest',
     base_loop ([2; 3] ++ 5 :: [7; 11; 13; 17; 19; 23; 29; 31; 37]) 5 1 2
     = base_loop ([2; 3] ++ 5 :: rest') 5 1 2) /\
  miller_rabin 5 = Ret 1.
Proof.
  apply (early_exit_is_prime 5 1 2 [2; 3] 5 [7; 11; 13; 17; 19; 23; 29; 31; 37]).
  - unfold u64. rewrite modulus_eq. lia.
  - lia.
  - reflexivity.
  - vm_compute. reflexivity.
  - reflexivity.
  - lia.
  - repeat constructor; vm_compute; discriminate.
Defined.

(** C9: for every 64-bit [n], [miller_rabin n] returns, and its verdict is
    [0] or [1]: no loop on the way runs out of fuel.  The loops of
    [mod_mul] and [mod_pow] end on all 64-bit operands and every modulus
    [m >= 1]. *)
Theorem miller_rabin_total n x y m :
  u64 n -> u64 x -> u64 y -> u64 m -> 1 <= m ->
  (miller_rabin n = Ret 0 \/ miller_rabin n = Ret 1) /\
  (exists v, mod_mul x y m = Ret v) /\
  (exists v, mod_pow x y m = Ret v).
Proof.
  intros Hn Hx Hy Hm Hm1. split; [now apply miller_rabin_returns|]. split.
  - rewrite mod_mul_eq by (auto; apply Hx). now eexists.
  - rewrite mod_pow_eq by auto. now eexists.
Qed.

Lemma miller_rabin_total_witness :
  (miller_rabin 561 = Ret 0 \/ miller_rabin 561 = Ret 1) /\
  (exists v, mod_mul (2^64 - 1) (2^64 - 1) (2^64 - 1) = Ret v) /\
  (exists v, mod_pow (2^64 - 1) (2^64 - 1) (2^64 - 1) = Ret v).
Proof.
  apply (miller_rabin_total 561 (2^64 - 1) (2^64 - 1) (2^64 - 1));
    u64_solve.
Defined.

(** ** Primes are never rejected

    One half of the correctness of [miller_rabin]: a prime passes every
    base.  (The other half, that a composite below [2^64] is caught by one
    of the 12 bases, is known from an exhaustive search only.) *)

Section Primes.

Variable n : Z.
Hypothesis n_prime : Z.prime n.

Let n_ge_2 : 2 <= n := Z.prime_ge_2 n n_prime.

(** The only square roots of [1] modulo a prime are [1] and [n - 1]. *)
Lemma sqrt_one_prime y :
  (y * y) mod n = 1 -> y mod n = 1 \/ y mod n = n - 1.
Proof.
  intros Hy.
  assert (Hdiv : (n | (y - 1) * (y + 1))).
  { exists ((y * y) / n).
    pose proof (Z.div_mod (y * y) n ltac:(lia)) as E. lia. }
  apply (Z.divide_prime_mul _ _ _ n_prime) in Hdiv.
  destruct Hdiv as [[c Hc]|[c Hc]].
  - left. replace y with (1 + c * n) by lia.
    rewrite Z.mod_add, Z.mod_small by lia. reflexivity.
  - right. replace y with (n - 1 + (c - 1) * n) by lia.
    rewrite Z.mod_add, Z.mod_small by lia. reflexivity.
Qed.

(** If repeated squaring of [x] reaches [1], then [x] is [1] or [n - 1]
    was met on the way. *)
Lemma squaring_chain (k : nat) : forall x,
  x ^ (2 ^ Z.of_nat k) mod n = 1 ->
  x mod n = 1 \/
  exists i, 0 <= i < Z.of_nat k /\ x ^ (2 ^ i) mod n = n - 1.
Proof.
  induction k as [|k IH]; intros x Hx.
  - left. now rewrite Z.pow_0_r, Z.pow_1_r in Hx.
  - rewrite Nat2Z.inj_succ, Z.pow_succ_r, Z.mul_comm in Hx by lia.
    rewrite Z.pow_mul_r, Z.pow_2_r in Hx by lia.
    destruct (sqrt_one_prime _ Hx) as [H1|Hm1].
    + destruct (IH x H1) as [H|(i & Hi & E)]; [now left|].
      right. exists i. split; [lia | exact E].
    + right. exists (Z.of_nat k). split; [lia | exact Hm1].
Qed.

(** What the squaring loop has seen when it ends with [composite = 1]. *)
Lemma square_loop_true fuel : forall j r x,
  u64 n -> u64 x -> 1 <= r <= 63 -> 0 <= j ->
  square_loop fuel j r x n = Ret true ->
  forall i, 1 <= i <= r - 1 - j -> x ^ (2 ^ i) mod n <> n - 1.
Proof.
  induction fuel as [|fuel IH]; intros j r x Hn Hx Hr Hj;
    cbn [square_loop];
    rewrite (sub64_exact r 1) by (unfold u64; rewrite modulus_eq; lia);
    destruct (Z.ltb_spec j (r - 1)) as [Hlt|Hge];
    try discriminate; try (intros _ i Hi; lia).
  rewrite mod_mul_eq by (auto; try apply Hx; lia). cbn [bind].
  rewrite sub64_exact by (unfold u64 in *; lia).
  destruct (Z.eqb_spec (x * x mod n) (n - 1)) as [|Hne]; [discriminate|].
  rewrite add64_exact by (unfold u64; rewrite modulus_eq; lia).
  intros Hloop i Hi.
  assert (Hx' : u64 (x * x mod n)).
  { apply (u64_below _ n); auto. apply mod_bound. lia. }
  destruct (Z.eq_dec i 1) as [->|Hi1].
  - now rewrite Z.pow_1_r, Z.pow_2_r.
  - specialize (IH (j + 1) r (x * x mod n) Hn Hx' Hr ltac:(lia) Hloop (i - 1)
                   ltac:(lia)).
    rewrite <- Zpower_mod in IH by lia.
    replace i with (1 + (i - 1)) by lia.
    rewrite Z.pow_add_r, Z.pow_1_r, Z.pow_mul_r, Z.pow_2_r by lia.
    exact IH.
Qed.

(** No base between [1] and [n - 2] ends its pass with [return 0]. *)
Lemma base_body_prime d r a_i :
  u64 n -> 3 < n -> n mod 2 = 1 ->
  1 <= r <= 63 -> 0 < d < n -> n - 1 = d * 2 ^ r ->
  1 <= a_i -> u64 a_i ->
  base_body n d r a_i <> Ret (Return 0).
Proof.
  intros Hn Hn3 Hodd Hr Hd Edr Ha1 Ha.
  assert (Hd64 : u64 d) by (unfold u64 in *; lia).
  unfold base_body.
  rewrite (sub64_exact n 2), (sub64_exact n 1) by (unfold u64 in *; lia).
  destruct (Z.gtb_spec a_i (n - 2)) as [|Hle]; [discriminate|].
  rewrite mod_pow_eq by (auto; lia). cbn [bind].
  destruct (Z.eqb_spec d 0) as [|_]; [lia|].
  set (x := a_i ^ d mod n).
  assert (Hxn : 0 <= x < n) by (apply mod_bound; lia).
  assert (Hx : u64 x) by (apply (u64_below _ n); auto).
  destruct (Z.eqb_spec x 1) as [|Hx1]; [discriminate|].
  destruct (Z.eqb_spec x (n - 1)) as [|Hxm1]; [discriminate|].
  cbn [orb].
  destruct (square_loop_returns WIDTH 0 r x n Hn ltac:(lia) Hx Hr) as (c & E);
    [lia | change (Z.of_nat WIDTH) with 64; lia |].
  rewrite E. cbn [bind].
  destruct c; [exfalso | discriminate].
  assert (Hfermat : x ^ (2 ^ r) mod n = 1).
  { subst x. rewrite <- Zpower_mod, <- Z.pow_mul_r, <- Edr by lia.
    apply Z.fermat_nz; [exact n_prime|].
    rewrite Z.mod_small by lia. lia. }
  rewrite <- (Z2Nat.id r) in Hfermat by lia.
  destruct (squaring_chain _ _ Hfermat) as [H1|(i & Hi & Ei)].
  - rewrite Z.mod_small in H1 by lia. contradiction.
  - rewrite Z2Nat.id in Hi by lia.
    destruct (Z.eq_dec i 0) as [->|Hi0].
    + rewrite Z.pow_0_r, Z.pow_1_r, Z.mod_small in Ei by lia. contradiction.
    + apply (square_loop_true WIDTH 0 r x Hn Hx Hr ltac:(lia) E i); [lia|].
      exact Ei.
Qed.

Lemma base_loop_prime bases : forall d r,
  u64 n -> 3 < n -> n mod 2 = 1 ->
  1 <= r <= 63 -> 0 < d < n -> n - 1 = d * 2 ^ r ->
  Forall (fun b => 1 <= b) bases -> Forall u64 bases ->
  base_loop bases n d r = Ret 1.
Proof.
  induction bases as [|a_i rest IH];
    intros d r Hn Hn3 Hodd Hr Hd Edr Hpos Hu; cbn [base_loop]; [reflexivity|].
  inversion Hpos as [|? ? Ha1 Hpos']; subst.
  inversion Hu as [|? ? Ha Hu']; subst.
  pose proof (base_body_prime d r a_i Hn Hn3 Hodd Hr Hd Edr Ha1 Ha) as Hok.
  destruct (base_body_returns n d r a_i) as [E|[E|E]]; auto;
    try (unfold u64 in *; lia);
    rewrite E in *; cbn [bind]; auto; contradiction.
Qed.

(** A 64-bit prime gets the verdict [1]. *)
Lemma miller_rabin_accepts_prime : u64 n -> miller_rabin n = Ret 1.
Proof.
  intros Hn. unfold miller_rabin.
  destruct (Z.ltb_spec n 2); [lia|].
  destruct (_ || _) eqn:E23; [reflexivity|].
  apply orb_false_iff in E23. destruct E23 as [E2 E3].
  apply Z.eqb_neq in E2, E3.
  destruct (Z.eqb_spec (n mod 2) 0) as [Hev|Hodd].
  - exfalso. pose proof n_prime as [_ Hp]. apply (Hp 2); [lia|].
    apply Z.mod_divide; [lia | exact Hev].
  - pose proof (Z.mod_pos_bound n 2 ltac:(lia)) as Hbit.
    destruct (decompose_pred n) as (d & r & E & Hr & Hd & Edr & _); auto;
      try lia.
    rewrite E. cbn [bind].
    apply base_loop_prime; auto using bases_u64; try lia.
    cbn [firstn BASELEN a]. repeat (constructor; [lia|]). constructor.
Qed.

End Primes.

(** ** Small inputs, by trial division *)

Lemma forall_from_spec f count : forall k,
  forall_from count k f = true <->
  (forall i, k <= i < k + Z.of_nat count -> f i = true).
Proof.
  induction count as [|count IH]; intros k; cbn [forall_from].
  - split; [intros _ i Hi; lia | reflexivity].
  - rewrite andb_true_iff, IH. split.
    + intros [Hk Hrest] i Hi.
      destruct (Z.eq_dec i k) as [->|Hne]; [exact Hk|].
      apply Hrest. lia.
    + intros Hall. split; [apply Hall; lia|].
      intros i Hi. apply Hall. lia.
Qed.

Lemma primeb_spec n : primeb n = true <-> Z.prime n.
Proof.
  unfold primeb, Z.prime.
  rewrite andb_true_iff, Z.ltb_lt, forall_from_spec.
  split; intros [H1 Hall]; (split; [exact H1|]).
  - intros k Hk Hdiv.
    specialize (Hall k ltac:(lia)).
    apply negb_true_iff, Z.eqb_neq in Hall.
    apply Hall, Z.mod_divide; [lia | exact Hdiv].
  - intros k Hk. apply negb_true_iff, Z.eqb_neq. intros Hmod.
    apply (Hall k); [lia|].
    apply Z.mod_divide; [lia | exact Hmod].
Qed.

Lemma agrees_spec n :
  agrees n = true -> (miller_rabin n = Ret 1 <-> Z.prime n).
Proof.
  unfold agrees. rewrite <- primeb_spec.
  destruct (miller_rabin n) as [v| |]; try discriminate.
  intros H. apply eqb_prop in H. rewrite <- H, Z.eqb_eq.
  split; [now intros [= ->] | now intros ->].
Qed.

Lemma agrees_below_1024 : forall_from 1024 0 agrees = true.
Proof. vm_compute. reflexivity. Qed.

(** Below [1024], and so wherever the base loop leaves early (odd
    [n <= 37]), the verdict is [1] exactly on the primes. *)
Lemma miller_rabin_correct_below_1024 n :
  0 <= n < 1024 -> (miller_rabin n = Ret 1 <-> Z.prime n).
Proof.
  intros Hn. apply agrees_spec.
  pose proof agrees_below_1024 as H. rewrite forall_from_spec in H.
  apply H. lia.
Qed.

(** What is left of the equivalence between verdict [1] and primality on
    all 64-bit inputs: that no composite from [1024] on passes all bases. *)
Lemma miller_rabin_correct_if_sound :
  (forall n, 1024 <= n < modulus -> miller_rabin n = Ret 1 -> Z.prime n) ->
  forall n, u64 n -> (miller_rabin n = Ret 1 <-> Z.prime n).
Proof.
  intros Hsound n Hn.
  destruct (Z.lt_ge_cases n 1024) as [Hlt|Hge].
  - apply miller_rabin_correct_below_1024. unfold u64 in Hn. lia.
  - split.
    + apply Hsound. unfold u64 in Hn. lia.
    + intros Hp. now apply miller_rabin_accepts_prime.
Qed.

(** ** Further properties of the modular primitives *)

(** X1: [mod_add] needs only its second operand reduced: for 64-bit [a],
    [b], [m] with [1 <= m] and [b <= m] it returns [(a + b) mod m], also
    when [a >= m]. *)
Theorem mod_add_second_reduced a b m :
  u64 a -> u64 b -> u64 m -> 1 <= m -> b <= m ->
  mod_add a b m = Ret ((a + b) mod m).
Proof.
  unfold u64. intros Ha Hb Hm Hm1 Hbm. unfold mod_add.
  rewrite (sub64_exact m b) by (unfold u64; lia).
  rewrite urem_eq by lia. f_equal.
  destruct (Z.geb_spec a (m - b)) as [Hge|Hlt].
  - rewrite sub64_exact by (unfold u64; lia).
    rewrite <- (Z.mod_add (a - (m - b)) 1 m) by lia. f_equal. lia.
  - now rewrite add64_exact by (unfold u64; lia).
Qed.

Lemma mod_add_second_reduced_witness :
  mod_add (2^64 - 1) 3 3 = Ret ((2^64 - 1 + 3) mod 3).
Proof.
  apply (mod_add_second_reduced (2^64 - 1) 3 3); u64_solve.
Defined.

(** With [b > m] the comparison [a >= m - b] is made against a wrapped
    difference, and the result can be wrong. *)
Example mod_add_unreduced_b :
  mod_add (2^64 - 1) 5 3 = Ret 1 /\ (2^64 - 1 + 5) mod 3 = 2.
Proof. split; vm_compute; reflexivity. Qed.

(** X2: [mod_add] is commutative on reduced operands, and [mod_mul] is
    commutative on all 64-bit operands. *)
Theorem mod_add_mod_mul_comm a b m :
  u64 a -> u64 b -> u64 m -> 1 <= m ->
  (a < m -> b < m -> mod_add a b m = mod_add b a m) /\
  mod_mul a b m = mod_mul b a m.
Proof.
  intros Ha Hb Hm Hm1. split.
  - intros Ham Hbm.
    rewrite !mod_add_eq by (unfold u64 in *; auto; lia).
    now rewrite Z.add_comm.
  - rewrite !mod_mul_eq by (auto; apply Ha || apply Hb).
    now rewrite Z.mul_comm.
Qed.

Lemma mod_add_mod_mul_comm_witness :
  (5 < 7 -> 6 < 7 -> mod_add 5 6 7 = mod_add 6 5 7) /\
  mod_mul 5 6 7 = mod_mul 6 5 7.
Proof.
  apply (mod_add_mod_mul_comm 5 6 7); u64_solve.
Defined.

(** X3: neutral and absorbing operands: [mod_add a 0 m] returns [a] for
    [a < m]; [mod_mul a 1 m] and [mod_pow a 1 m] return [a mod m];
    [mod_mul a 0 m] returns [0]. *)
Theorem neutral_operands a m :
  u64 a -> u64 m -> 1 <= m ->
  (a < m -> mod_add a 0 m = Ret a) /\
  mod_mul a 1 m = Ret (a mod m) /\
  mod_mul a 0 m = Ret 0 /\
  mod_pow a 1 m = Ret (a mod m).
Proof.
  intros Ha Hm Hm1.
  assert (H0 : u64 0) by u64_solve.
  assert (H1 : u64 1) by u64_solve.
  split; [|split; [|split]].
  - intros Ham. rewrite mod_add_eq by (unfold u64 in *; auto; lia).
    rewrite Z.add_0_r, Z.mod_small by (unfold u64 in *; lia). reflexivity.
  - rewrite mod_mul_eq by (auto; apply Ha). now rewrite Z.mul_1_r.
  - rewrite mod_mul_eq by (auto; apply Ha).
    now rewrite Z.mul_0_r, Z.mod_0_l by lia.
  - rewrite mod_pow_eq by auto. cbn [Z.eqb]. now rewrite Z.pow_1_r.
Qed.

Lemma neutral_operands_witness :
  (100 < 7 -> mod_add 100 0 7 = Ret 100) /\
  mod_mul 100 1 7 = Ret (100 mod 7) /\
  mod_mul 100 0 7 = Ret 0 /\
  mod_pow 100 1 7 = Ret (100 mod 7).
Proof.
  apply (neutral_operands 100 7); u64_solve.
Defined.

(** X4: for 64-bit [a], [b], [m] with [a < m] and [b < m], adding [b] to
    [mod_sub a b m] with [mod_add] gives back [a]. *)
Theorem mod_add_mod_sub a b m :
  u64 a -> u64 b -> u64 m -> a < m -> b < m ->
  (s <- mod_sub a b m ;; mod_add s b m) = Ret a.
Proof.
  intros Ha Hb Hm Ham Hbm.
  assert (Hm1 : 1 <= m) by (unfold u64 in *; lia).
  rewrite mod_sub_eq by (unfold u64 in *; auto; lia). cbn [bind].
  pose proof (mod_bound (a - b) m Hm1) as Hs.
  rewrite mod_add_eq by (unfold u64 in *; auto; lia).
  f_equal. rewrite Zplus_mod_idemp_l.
  replace (a - b + b) with a by lia.
  apply Z.mod_small. unfold u64 in *; lia.
Qed.

Lemma mod_add_mod_sub_witness :
  (s <- mod_sub 2 (2^64 - 3) (2^64 - 1) ;; mod_add s (2^64 - 3) (2^64 - 1)) = Ret 2.
Proof.
  apply (mod_add_mod_sub 2 (2^64 - 3) (2^64 - 1)); u64_solve.
Defined.

(** X5: beyond the reach of one added modulus, [b > a + m], the sum
    [a + m - b] of [mod_sub] wraps around once, and the result is
    [(a - b + 2^64) mod m]. *)
Theorem mod_sub_wrapped a b m :
  u64 a -> u64 b -> u64 m -> 1 <= m -> a + m < b ->
  mod_sub a b m = Ret ((a - b + 2 ^ 64) mod m).
Proof.
  unfold u64. rewrite modulus_eq. intros Ha Hb Hm Hm1 Hlt. unfold mod_sub.
  destruct (Z.ltb_spec a b) as [_|Hge]; [|lia].
  rewrite urem_eq by lia. f_equal.
  rewrite sub64_add64. unfold wrap. rewrite modulus_eq.
  rewrite <- (Z.mod_add (a + m - b) 1 18446744073709551616) by lia.
  rewrite (Z.mod_small (a + m - b + 1 * 18446744073709551616)) by lia.
  rewrite <- (Z.mod_add (a - b + 2 ^ 64) 1 m) by lia. f_equal. lia.
Qed.

Lemma mod_sub_wrapped_witness :
  mod_sub 0 5 3 = Ret ((0 - 5 + 2 ^ 64) mod 3).
Proof.
  apply (mod_sub_wrapped 0 5 3); u64_solve.
Defined.

(** X6: [mod_mul] distributes over [mod_add]: for reduced [a], [b] and any
    64-bit [c], multiplying the sum by [c] and adding the two products
    return the same value, [((a + b) * c) mod m]. *)
Theorem mod_mul_distributes a b c m :
  u64 a -> u64 b -> u64 c -> u64 m -> a < m -> b < m ->
  (s <- mod_add a b m ;; mod_mul s c m) = Ret (((a + b) * c) mod m) /\
  (p <- mod_mul a c m ;; q <- mod_mul b c m ;; mod_add p q m)
  = Ret (((a + b) * c) mod m).
Proof.
  intros Ha Hb Hc Hm Ham Hbm.
  assert (Hm1 : 1 <= m) by (unfold u64 in *; lia).
  split.
  - rewrite mod_add_eq by (unfold u64 in *; auto; lia). cbn [bind].
    rewrite mod_mul_eq by (auto; apply mod_bound; lia).
    now rewrite Zmult_mod_idemp_l.
  - rewrite !mod_mul_eq by (auto; apply Ha || apply Hb). cbn [bind].
    rewrite mod_add_eq by (auto using mod_bound).
    rewrite <- Zplus_mod. do 2 f_equal. ring.
Qed.

Lemma mod_mul_distributes_witness :
  (s <- mod_add 5 6 7 ;; mod_mul s 9 7) = Ret (((5 + 6) * 9) mod 7) /\
  (p <- mod_mul 5 9 7 ;; q <- mod_mul 6 9 7 ;; mod_add p q 7)
  = Ret (((5 + 6) * 9) mod 7).
Proof.
  apply (mod_mul_distributes 5 6 9 7); u64_solve.
Defined.

(** X7: [mod_mul] is associative on 64-bit operands: both bracketings
    return [(a * b * c) mod m]. *)
Theorem mod_mul_assoc a b c m :
  u64 a -> u64 b -> u64 c -> u64 m -> 1 <= m ->
  (p <- mod_mul a b m ;; mod_mul p c m) = Ret ((a * b * c) mod m) /\
  (q <- mod_mul b c m ;; mod_mul a q m) = Ret ((a * b * c) mod m).
Proof.
  intros Ha Hb Hc Hm Hm1. split.
  - rewrite mod_mul_eq by (auto; apply Ha). cbn [bind].
    rewrite mod_mul_eq by (auto; apply mod_bound; lia).
    now rewrite Zmult_mod_idemp_l.
  - rewrite mod_mul_eq by (auto; apply Hb). cbn [bind].
    assert (Hq : u64 ((b * c) mod m)).
    { apply (u64_below _ m); auto using mod_bound. }
    rewrite mod_mul_eq by (auto; apply Ha).
    rewrite Zmult_mod_idemp_r. do 2 f_equal. ring.
Qed.

Lemma mod_mul_assoc_witness :
  (p <- mod_mul 100 200 7 ;; mod_mul p 300 7) = Ret ((100 * 200 * 300) mod 7) /\
  (q <- mod_mul 200 300 7 ;; mod_mul 100 q 7) = Ret ((100 * 200 * 300) mod 7).
Proof.
  apply (mod_mul_assoc 100 200 300 7); u64_solve.
Defined.

(** X8: one more factor: for every [m >= 1] (also [m = 1]), multiplying
    [mod_pow a b m] by [a] with [mod_mul] returns what [mod_pow a (b + 1) m]
    returns, provided [b + 1] is still a 64-bit value. *)
Theorem mod_pow_succ a b m :
  u64 a -> u64 b -> u64 (b + 1) -> u64 m -> 1 <= m ->
  (p <- mod_pow a b m ;; mod_mul p a m) = Ret ((a ^ (b + 1)) mod m) /\
  mod_pow a (b + 1) m = Ret ((a ^ (b + 1)) mod m).
Proof.
  intros Ha Hb Hb1 Hm Hm1.
  assert (Hb0 : 0 <= b) by apply Hb.
  rewrite !mod_pow_eq by auto. cbn [bind].
  destruct (Z.eqb_spec (b + 1) 0) as [|_]; [lia|].
  split; [|reflexivity].
  destruct (Z.eqb_spec b 0) as [->|Hnz].
  - rewrite mod_mul_eq by (auto; lia).
    now rewrite Z.mul_1_l, Z.pow_1_r.
  - rewrite mod_mul_eq by (auto; apply mod_bound; lia).
    rewrite Zmult_mod_idemp_l. do 2 f_equal.
    rewrite Z.pow_add_r, Z.pow_1_r by lia. ring.
Qed.

Lemma mod_pow_succ_witness :
  (p <- mod_pow 3 0 1 ;; mod_mul p 3 1) = Ret ((3 ^ (0 + 1)) mod 1) /\
  mod_pow 3 (0 + 1) 1 = Ret ((3 ^ (0 + 1)) mod 1).
Proof.
  apply (mod_pow_succ 3 0 1); u64_solve.
Defined.

(** X9: exponents add: the [mod_mul] of [mod_pow a b m] and [mod_pow a c m]
    returns what [mod_pow a (b + c) m] returns, whenever [b + c] is a 64-bit
    value and [b + c >= 1] or [m >= 2]. *)
Theorem mod_pow_add a b c m :
  u64 a -> u64 b -> u64 c -> u64 (b + c) -> u64 m -> 1 <= m ->
  1 <= b + c \/ 2 <= m ->
  (p <- mod_pow a b m ;; q <- mod_pow a c m ;; mod_mul p q m)
  = Ret ((a ^ (b + c)) mod m) /\
  mod_pow a (b + c) m = Ret ((a ^ (b + c)) mod m).
Proof.
  intros Ha Hb Hc Hbc Hm Hm1 Hnz.
  assert (Hb0 : 0 <= b) by apply Hb.
  assert (Hc0 : 0 <= c) by apply Hc.
  assert (H1 : u64 1) by u64_solve.
  rewrite !mod_pow_eq by auto. cbn [bind].
  assert (Hq : forall e, u64 (if e =? 0 then 1 else a ^ e mod m)).
  { intros e. destruct (e =? 0); [exact H1|].
    apply (u64_below _ m); auto using mod_bound. }
  rewrite mod_mul_eq by (auto; apply Hq).
  assert (Hval : forall e, 0 <= e ->
            (if e =? 0 then 1 else a ^ e mod m) mod m = a ^ e mod m).
  { intros e He. destruct (Z.eqb_spec e 0) as [->|_].
    - now rewrite Z.pow_0_r.
    - now rewrite Z.mod_mod by lia. }
  split.
  - rewrite Zmult_mod, !Hval, <- Zmult_mod by lia.
    now rewrite Z.pow_add_r by lia.
  - f_equal. destruct (Z.eqb_spec (b + c) 0) as [E|_]; [|reflexivity].
    rewrite E, Z.pow_0_r, Z.mod_small by lia. reflexivity.
Qed.

Lemma mod_pow_add_witness :
  (p <- mod_pow 3 0 1 ;; q <- mod_pow 3 5 1 ;; mod_mul p q 1)
  = Ret ((3 ^ (0 + 5)) mod 1) /\
  mod_pow 3 (0 + 5) 1 = Ret ((3 ^ (0 + 5)) mod 1).
Proof.
  apply (mod_pow_add 3 0 5 1); u64_solve.
Defined.

(** The restriction of X9 is needed: at [m = 1] and [b = c = 0] the product
    of the two unreduced [1]s is reduced to [0], but [mod_pow a 0 1] is
    [1]. *)
Example mod_pow_add_modulus_one :
  (p <- mod_pow 3 0 1 ;; q <- mod_pow 3 0 1 ;; mod_mul p q 1) = Ret 0 /\
  mod_pow 3 (0 + 0) 1 = Ret 1.
Proof. split; vm_compute; reflexivity. Qed.

(** ** Number of passes of the halving loops *)

Lemma double_fuel b fuel :
  2 ^ Z.of_nat (S fuel) <= b -> 2 ^ Z.of_nat fuel <= b / 2.
Proof.
  rewrite Nat2Z.inj_succ, Z.pow_succ_r by lia. intros Hb.
  apply Z.div_le_lower_bound; lia.
Qed.

Lemma pow2_pos (k : nat) : 0 < 2 ^ Z.of_nat k.
Proof. apply Z.pow_pos_nonneg; lia. Qed.

Lemma mod_mul_loop_short fuel : forall r a b m,
  u64 m -> 0 <= r < m -> 0 <= a < m -> 2 ^ Z.of_nat fuel <= b ->
  mod_mul_loop fuel r a b m = OutOfFuel.
Proof.
  induction fuel as [|fuel IH]; intros r a b m Hm Hr Ha Hb;
    cbn [mod_mul_loop].
  - destruct (Z.gtb_spec b 0); [reflexivity | cbn in Hb; lia].
  - pose proof (pow2_pos fuel) as Hpos.
    assert (Hd := double_fuel b fuel Hb).
    destruct (Z.gtb_spec b 0); [|lia].
    rewrite shiftr_1, (mod_add_eq a a m) by auto.
    assert (Ha' := mod_bound (a + a) m ltac:(lia)).
    assert (Hr' := mod_bound (r + a) m ltac:(lia)).
    destruct (negb _); [rewrite mod_add_eq by auto|]; cbn [bind];
      now apply IH.
Qed.

Lemma mod_pow_loop_short fuel : forall r a b m,
  u64 m -> 1 <= m -> 0 <= r -> u64 a -> 2 ^ Z.of_nat fuel <= b ->
  mod_pow_loop fuel r a b m = OutOfFuel.
Proof.
  induction fuel as [|fuel IH]; intros r a b m Hm Hm1 Hr Ha Hb;
    cbn [mod_pow_loop].
  - destruct (Z.gtb_spec b 0); [reflexivity | cbn in Hb; lia].
  - pose proof (pow2_pos fuel) as Hpos.
    assert (Hd := double_fuel b fuel Hb).
    destruct (Z.gtb_spec b 0); [|lia].
    rewrite shiftr_1, (mod_mul_eq a a m) by (auto; apply Ha).
    assert (Ha' : u64 ((a * a) mod m)).
    { apply (u64_below _ m); auto using mod_bound. }
    assert (Hr' := mod_bound (r * a) m Hm1).
    destruct (negb _); [rewrite mod_mul_eq by auto|]; cbn [bind];
      apply IH; auto; lia.
Qed.

(** X10: the loops of [mod_mul] and [mod_pow] make as many passes as [b]
    has bits: with operands as the functions set them up, [k] passes are
    enough when [b < 2^k] (and the loops then return [(r + a * b) mod m],
    resp. [r] for [b = 0] and [(r * a ^ b) mod m] otherwise), and [k] passes
    are too few when [b >= 2^k]. *)
Theorem halving_loops_passes (k : nat) r a b m :
  u64 m -> 0 <= r < m -> 0 <= a < m -> 0 <= b ->
  (b < 2 ^ Z.of_nat k ->
     mod_mul_loop k r a b m = Ret ((r + a * b) mod m) /\
     mod_pow_loop k r a b m = Ret (if b =? 0 then r else (r * a ^ b) mod m)) /\
  (2 ^ Z.of_nat k <= b ->
     mod_mul_loop k r a b m = OutOfFuel /\
     mod_pow_loop k r a b m = OutOfFuel).
Proof.
  intros Hm Hr Ha Hb.
  assert (Ha64 : u64 a) by (apply (u64_below _ m); auto).
  split; intros Hk; split.
  - apply mod_mul_loop_eq; auto.
  - apply mod_pow_loop_eq; auto; lia.
  - apply mod_mul_loop_short; auto.
  - apply mod_pow_loop_short; auto; lia.
Qed.

Lemma halving_loops_passes_witness :
  (5 < 2 ^ Z.of_nat 3 ->
     mod_mul_loop 3 0 6 5 7 = Ret ((0 + 6 * 5) mod 7) /\
     mod_pow_loop 3 0 6 5 7 = Ret (if 5 =? 0 then 0 else (0 * 6 ^ 5) mod 7)) /\
  (2 ^ Z.of_nat 3 <= 5 ->
     mod_mul_loop 3 0 6 5 7 = OutOfFuel /\
     mod_pow_loop 3 0 6 5 7 = OutOfFuel).
Proof.
  apply (halving_loops_passes 3 0 6 5 7); u64_solve.
Defined.

(** ** The decomposition and the passes of the base loop *)

Lemma odd_part_unique_le d r d' r' :
  0 <= r <= r' -> d mod 2 = 1 -> d * 2 ^ r = d' * 2 ^ r' -> r = r'.
Proof.
  intros Hr Hd E.
  destruct (Z.eq_dec r r') as [|Hne]; [assumption | exfalso].
  replace r' with (r + (r' - r - 1) + 1) in E by lia.
  rewrite !Z.pow_add_r, Z.pow_1_r in E by lia.
  assert (Hpos : 0 < 2 ^ r) by (apply Z.pow_pos_nonneg; lia).
  assert (Ed : d = d' * 2 ^ (r' - r - 1) * 2) by nia.
  rewrite Ed, Z.mod_mul in Hd by lia. discriminate.
Qed.

Lemma odd_part_unique d r d' r' :
  0 <= r -> 0 <= r' -> d mod 2 = 1 -> d' mod 2 = 1 ->
  d * 2 ^ r = d' * 2 ^ r' -> d = d' /\ r = r'.
Proof.
  intros Hr Hr' Hd Hd' E.
  assert (Er : r = r').
  { destruct (Z.le_ge_cases r r').
    - now apply (odd_part_unique_le d r d' r').
    - symmetry. now apply (odd_part_unique_le d' r' d r). }
  subst r'. split; [|reflexivity].
  assert (Hpos : 0 < 2 ^ r) by (apply Z.pow_pos_nonneg; lia).
  nia.
Qed.

(** X11: for an odd 64-bit [n > 3] the decomposition loop returns [(d, r)]
    with [n - 1 = d * 2^r], [d] odd and [1 <= r <= 63], and this is the only
    way to write [n - 1] as an odd number times a power of two. *)
Theorem decompose_odd_part n :
  u64 n -> 3 < n -> n mod 2 = 1 ->
  exists d r,
    decompose WIDTH (sub64 n 1) 0 = Ret (d, r) /\
    n - 1 = d * 2 ^ r /\ d mod 2 = 1 /\ 1 <= r <= 63 /\
    (forall d' r', 0 <= r' -> d' mod 2 = 1 -> n - 1 = d' * 2 ^ r' ->
       d' = d /\ r' = r).
Proof.
  intros Hn Hn3 Hodd.
  destruct (decompose_pred n Hn Hn3 Hodd) as (d & r & E & Hr & Hd & Edr & Hd1).
  exists d, r. repeat split; auto; try lia;
    destruct (odd_part_unique d' r' d r) as [? ?]; auto; lia.
Qed.

Lemma decompose_odd_part_witness :
  exists d r,
    decompose WIDTH (sub64 561 1) 0 = Ret (d, r) /\
    561 - 1 = d * 2 ^ r /\ d mod 2 = 1 /\ 1 <= r <= 63 /\
    (forall d' r', 0 <= r' -> d' mod 2 = 1 -> 561 - 1 = d' * 2 ^ r' ->
       d' = d /\ r' = r).
Proof.
  apply (decompose_odd_part 561); [u64_solve | lia | reflexivity].
Defined.

Lemma pow_sq_shift x i n :
  0 < n -> 0 <= i ->
  (x * x mod n) ^ (2 ^ i) mod n = x ^ (2 ^ (i + 1)) mod n.
Proof.
  intros Hn Hi.
  rewrite <- Zpower_mod by lia.
  rewrite (Z.add_comm i 1), Z.pow_add_r, Z.pow_1_r, Z.pow_mul_r, Z.pow_2_r;
    try lia.
Qed.

Lemma square_loop_char fuel : forall j r x n,
  u64 n -> 1 <= n -> u64 x -> 1 <= r <= 63 -> 0 <= j ->
  r - 1 - j <= Z.of_nat fuel ->
  exists c, square_loop fuel j r x n = Ret c /\
    (c = false <->
     exists i, 1 <= i <= r - 1 - j /\ x ^ (2 ^ i) mod n = n - 1).
Proof.
  induction fuel as [|fuel IH]; intros j r x n Hn Hn1 Hx Hr Hj Hfuel;
    cbn [square_loop];
    rewrite (sub64_exact r 1) by u64_solve;
    destruct (Z.ltb_spec j (r - 1)) as [Hlt|Hge]; try lia;
    try (exists true; split; [reflexivity|];
         split; [discriminate | intros (i & Hi & _); lia]).
  rewrite mod_mul_eq by (auto; apply Hx). cbn [bind].
  rewrite (sub64_exact n 1) by (unfold u64 in *; lia).
  destruct (Z.eqb_spec (x * x mod n) (n - 1)) as [Heq|Hne].
  - exists false. split; [reflexivity|]. split; [|reflexivity].
    intros _. exists 1. split; [lia|].
    now rewrite Z.pow_1_r, Z.pow_2_r.
  - rewrite add64_exact by u64_solve.
    assert (Hx' : u64 (x * x mod n)).
    { apply (u64_below _ n); auto using mod_bound. }
    destruct (IH (j + 1) r (x * x mod n) n) as (c & E & Hc); auto; try lia.
    exists c. split; [exact E|]. rewrite Hc. split.
    + intros (i & Hi & Ei). exists (i + 1). split; [lia|].
      now rewrite <- pow_sq_shift by lia.
    + intros (i & Hi & Ei).
      destruct (Z.eq_dec i 1) as [->|Hi1].
      * rewrite Z.pow_1_r, Z.pow_2_r in Ei. contradiction.
      * exists (i - 1). split; [lia|].
        rewrite pow_sq_shift by lia.
        now replace (i - 1 + 1) with i by lia.
Qed.

Lemma base_body_char n d r b :
  u64 n -> 3 < n -> u64 d -> 0 < d -> 1 <= r <= 63 -> u64 b -> b <= n - 2 ->
  (base_body n d r b = Ret Continue /\ strong_probable_prime n d r b) \/
  (base_body n d r b = Ret (Return 0) /\ ~ strong_probable_prime n d r b).
Proof.
  intros Hn Hn3 Hd Hd0 Hr Hb Hle. unfold base_body, strong_probable_prime.
  rewrite (sub64_exact n 2), (sub64_exact n 1) by (unfold u64 in *; lia).
  destruct (Z.gtb_spec b (n - 2)) as [|_]; [lia|].
  rewrite mod_pow_eq by (auto; lia). cbn [bind].
  destruct (Z.eqb_spec d 0) as [|_]; [lia|].
  set (x := b ^ d mod n).
  assert (Hxn : 0 <= x < n) by (apply mod_bound; lia).
  assert (Hx : u64 x) by (apply (u64_below _ n); auto).
  assert (Hpow : forall i, 0 <= i -> x ^ (2 ^ i) mod n = b ^ (d * 2 ^ i) mod n).
  { intros i Hi. subst x. rewrite <- Zpower_mod by lia.
    rewrite Z.pow_mul_r; [reflexivity | lia | apply Z.pow_nonneg; lia]. }
  destruct (Z.eqb_spec x 1) as [Hx1|Hx1]; [left; split; [reflexivity | now left]|].
  destruct (Z.eqb_spec x (n - 1)) as [Hxm|Hxm]; cbn [orb].
  { left. split; [reflexivity|]. right. exists 0. split; [lia|].
    now rewrite Z.pow_0_r, Z.mul_1_r. }
  destruct (square_loop_char WIDTH 0 r x n) as (c & E & Hc); auto; try lia.
  { change (Z.of_nat WIDTH) with 64. lia. }
  rewrite E. cbn [bind]. destruct c.
  - right. split; [reflexivity|]. intros [H1|(j & Hj & Ej)]; [contradiction|].
    destruct (Z.eq_dec j 0) as [->|Hj0].
    + rewrite Z.pow_0_r, Z.mul_1_r in Ej. contradiction.
    + assert (Hfalse : true = false); [|discriminate].
      apply Hc. exists j. split; [lia|]. now rewrite Hpow by lia.
  - left. split; [reflexivity|]. right.
    destruct (proj1 Hc eq_refl) as (i & Hi & Ei).
    exists i. split; [lia|]. now rewrite <- Hpow by lia.
Qed.

Lemma base_loop_char bases : forall n d r,
  u64 n -> 3 < n -> u64 d -> 0 < d -> 1 <= r <= 63 ->
  Forall u64 bases -> StronglySorted Z.le bases ->
  (base_loop bases n d r = Ret 1 /\
   forall b, In b bases -> b <= n - 2 -> strong_probable_prime n d r b) \/
  (base_loop bases n d r = Ret 0 /\
   exists b, In b bases /\ b <= n - 2 /\ ~ strong_probable_prime n d r b).
Proof.
  induction bases as [|b rest IH]; intros n d r Hn Hn3 Hd Hd0 Hr Hu Hs;
    cbn [base_loop].
  - left. split; [reflexivity|]. intros b [].
  - inversion Hu as [|? ? Hb Hu']; subst.
    apply StronglySorted_inv in Hs. destruct Hs as [Hs Hall].
    destruct (Z.le_gt_cases b (n - 2)) as [Hle|Hgt].
    + destruct (base_body_char n d r b) as [[E Hspp]|[E Hspp]]; auto;
        rewrite E; cbn [bind].
      * destruct (IH n d r) as [[E' H]|[E' (c & Hin & Hc)]]; auto.
        -- left. split; [exact E'|].
           intros c [<-|Hin] Hc; auto.
        -- right. split; [exact E'|]. exists c. split; [now right | exact Hc].
      * right. split; [reflexivity|]. exists b. split; [now left | now split].
    + rewrite base_body_break
        by (rewrite sub64_exact by (unfold u64 in *; lia); lia).
      cbn [bind]. left. split; [reflexivity|].
      intros c [<-|Hin] Hc; [lia|].
      rewrite Forall_forall in Hall. specialize (Hall c Hin). lia.
Qed.

Lemma bases_sorted : StronglySorted Z.le (firstn BASELEN a).
Proof.
  cbn [firstn BASELEN a].
  repeat (constructor; [|repeat (constructor; [lia|]); constructor]).
  constructor.
Qed.

Lemma miller_rabin_odd n d r :
  u64 n -> 3 < n -> n mod 2 = 1 ->
  decompose WIDTH (sub64 n 1) 0 = Ret (d, r) ->
  miller_rabin n = base_loop (firstn BASELEN a) n d r.
Proof.
  intros Hn Hn3 Hodd Hdec. unfold miller_rabin.
  destruct (Z.ltb_spec n 2); [lia|].
  destruct (Z.eqb_spec n 2); [lia|]. destruct (Z.eqb_spec n 3); [lia|].
  rewrite Hodd, Hdec. reflexivity.
Qed.

Lemma miller_rabin_char n d r :
  u64 n -> 3 < n -> n mod 2 = 1 ->
  d mod 2 = 1 -> 0 <= r -> n - 1 = d * 2 ^ r ->
  (miller_rabin n = Ret 1 /\
   forall b, In b a -> b <= n - 2 -> strong_probable_prime n d r b) \/
  (miller_rabin n = Ret 0 /\
   exists b, In b a /\ b <= n - 2 /\ ~ strong_probable_prime n d r b).
Proof.
  intros Hn Hn3 Hodd Hd1 Hr0 Edr.
  destruct (decompose_pred n Hn Hn3 Hodd)
    as (d0 & r0 & E & Hr & Hd & Edr0 & Hd01).
  destruct (odd_part_unique d r d0 r0) as [-> ->]; auto; try lia.
  rewrite (miller_rabin_odd n d0 r0) by auto.
  change a with (firstn BASELEN a) at 2 4.
  apply base_loop_char; auto using bases_u64, bases_sorted; try lia.
  unfold u64 in *. lia.
Qed.


(** A strong probable prime satisfies Fermat's congruence. *)
Lemma strong_probable_prime_fermat n d r b :
  1 < n -> 0 <= d -> 0 <= r -> n - 1 = d * 2 ^ r ->
  strong_probable_prime n d r b -> b ^ (n - 1) mod n = 1.
Proof.
  intros Hn Hd Hr Edr Hspp. rewrite Edr.
  destruct Hspp as [H1|(j & Hj & Ej)].
  - rewrite Z.pow_mul_r; [|lia|apply Z.pow_nonneg; lia].
    rewrite Zpower_mod, H1, Z.pow_1_l by (try apply Z.pow_nonneg; lia).
    apply Z.mod_small. lia.
  - replace r with (j + 1 + (r - j - 1)) by lia.
    rewrite !Z.pow_add_r, Z.pow_1_r, !Z.mul_assoc by lia.
    assert (H2j : 0 <= 2 ^ j) by (apply Z.pow_nonneg; lia).
    assert (H2k : 0 <= 2 ^ (r - j - 1)) by (apply Z.pow_nonneg; lia).
    rewrite Z.pow_mul_r, Z.pow_mul_r by nia.
    rewrite Zpower_mod by lia.
    rewrite (Zpower_mod (b ^ (d * 2 ^ j))), Ej by lia.
    replace ((n - 1) ^ 2) with (1 + (n - 2) * n) by ring.
    rewrite Z.mod_add, (Z.mod_small 1 n), Z.pow_1_l by lia.
    apply Z.mod_small. lia.
Qed.

Lemma divide_pow_mod b e n :
  n <> 0 -> (b | n) -> 1 <= e -> (b | b ^ e mod n).
Proof.
  intros Hn [k Hk] He.
  exists (b ^ (e - 1) - k * (b ^ e / n)).
  rewrite Z.mod_eq by exact Hn.
  replace e with (e - 1 + 1) at 1 by lia.
  rewrite Z.pow_add_r, Z.pow_1_r by lia.
  rewrite Hk at 1. ring.
Qed.

Lemma in_bases_ge_2 b : In b a -> 2 <= b <= 37.
Proof.
  cbn [a In]. intros H.
  repeat (destruct H as [<-|H]; [lia|]). contradiction.
Qed.

(** ** Further properties of [miller_rabin] *)

(** X12: the squaring loop of a base, started on [x], ends with
    [composite = 0] exactly when one of [x^2, x^4, ..., x^(2^(r-1))] is
    [n - 1] modulo [n]. *)
Theorem square_loop_spec r x n :
  u64 n -> 1 <= n -> u64 x -> 1 <= r <= 63 ->
  exists composite,
    square_loop WIDTH 0 r x n = Ret composite /\
    (composite = false <->
     exists i, 1 <= i <= r - 1 /\ x ^ (2 ^ i) mod n = n - 1).
Proof.
  intros Hn Hn1 Hx Hr.
  destruct (square_loop_char WIDTH 0 r x n) as (c & E & Hc); auto; try lia.
  { change (Z.of_nat WIDTH) with 64. lia. }
  exists c. split; [exact E|].
  now replace (r - 1) with (r - 1 - 0) by lia.
Qed.

Lemma square_loop_spec_witness :
  exists composite,
    square_loop WIDTH 0 4 2 561 = Ret composite /\
    (composite = false <->
     exists i, 1 <= i <= 4 - 1 /\ 2 ^ (2 ^ i) mod 561 = 561 - 1).
Proof.
  apply (square_loop_spec 4 2 561); u64_solve.
Defined.

(** X13: one pass of the base loop, for a 64-bit [n > 3] and [0 < d]:
    a base [b > n - 2] ends it with [break]; a base [b <= n - 2] ends it
    with [continue] exactly when [b^d = 1] or some [b^(d * 2^j) = n - 1]
    with [j < r] modulo [n], and with [return 0] exactly otherwise. *)
Theorem base_body_spec n d r b :
  u64 n -> 3 < n -> u64 d -> 0 < d -> 1 <= r <= 63 -> u64 b ->
  (n - 2 < b -> base_body n d r b = Ret Break) /\
  (b <= n - 2 ->
     (base_body n d r b = Ret Continue <-> strong_probable_prime n d r b) /\
     (base_body n d r b = Ret (Return 0) <-> ~ strong_probable_prime n d r b)).
Proof.
  intros Hn Hn3 Hd Hd0 Hr Hb. split.
  - intros Hgt. apply base_body_break.
    rewrite sub64_exact by (unfold u64 in *; lia). lia.
  - intros Hle.
    destruct (base_body_char n d r b) as [[E Hspp]|[E Hspp]]; auto;
      rewrite E; split; split; auto; try discriminate; contradiction.
Qed.

Lemma base_body_spec_witness :
  (561 - 2 < 2 -> base_body 561 35 4 2 = Ret Break) /\
  (2 <= 561 - 2 ->
     (base_body 561 35 4 2 = Ret Continue <-> strong_probable_prime 561 35 4 2) /\
     (base_body 561 35 4 2 = Ret (Return 0) <-> ~ strong_probable_prime 561 35 4 2)).
Proof.
  apply (base_body_spec 561 35 4 2); u64_solve.
Defined.

(** X14: for an odd 64-bit [n > 3] with [n - 1 = d * 2^r], [d] odd:
    [miller_rabin n] returns [1] exactly when [n] is a strong probable
    prime to every base [b <= n - 2] of the 12, and returns [0] exactly
    when one of these bases is a witness against it. *)
Theorem miller_rabin_spec n d r :
  u64 n -> 3 < n -> n mod 2 = 1 ->
  d mod 2 = 1 -> 0 <= r -> n - 1 = d * 2 ^ r ->
  (miller_rabin n = Ret 1 <->
   forall b, In b a -> b <= n - 2 -> strong_probable_prime n d r b) /\
  (miller_rabin n = Ret 0 <->
   exists b, In b a /\ b <= n - 2 /\ ~ strong_probable_prime n d r b).
Proof.
  intros Hn Hn3 Hodd Hd1 Hr0 Edr.
  destruct (miller_rabin_char n d r) as [[E H]|[E (b & Hin & Hle & Hb)]];
    auto; rewrite E; split; split; auto; try discriminate.
  - intros (b & Hin & Hle & Hb). exfalso. auto.
  - intros Hall. exfalso. auto.
  - intros _. now exists b.
Qed.

Lemma miller_rabin_spec_witness :
  (miller_rabin 561 = Ret 1 <->
   forall b, In b a -> b <= 561 - 2 -> strong_probable_prime 561 35 4 b) /\
  (miller_rabin 561 = Ret 0 <->
   exists b, In b a /\ b <= 561 - 2 /\ ~ strong_probable_prime 561 35 4 b).
Proof.
  apply (miller_rabin_spec 561 35 4);
    try u64_solve; reflexivity.
Defined.

(** X15: [miller_rabin] never rejects a prime: a 64-bit prime gets the
    verdict [1], so a verdict [0] proves that [n] is not prime. *)
Theorem prime_never_rejected n :
  u64 n ->
  (Z.prime n -> miller_rabin n = Ret 1) /\
  (miller_rabin n = Ret 0 -> ~ Z.prime n).
Proof.
  intros Hn. split.
  - intros Hp. now apply miller_rabin_accepts_prime.
  - intros E Hp. rewrite (miller_rabin_accepts_prime n Hp Hn) in E.
    discriminate.
Qed.

Lemma prime_never_rejected_witness :
  (Z.prime 7919 -> miller_rabin 7919 = Ret 1) /\
  (miller_rabin 7919 = Ret 0 -> ~ Z.prime 7919).
Proof.
  apply (prime_never_rejected 7919); u64_solve.
Defined.

(** X16: for every [n < 1024] the verdict is [1] exactly when [n] is
    prime; this covers all [n] for which the base loop leaves early. *)
Theorem verdict_below_1024 n :
  0 <= n < 1024 -> (miller_rabin n = Ret 1 <-> Z.prime n).
Proof.
  intros Hn. apply agrees_spec.
  pose proof agrees_below_1024 as Hall.
  rewrite forall_from_spec in Hall.
  apply Hall. lia.
Qed.

Lemma verdict_below_1024_witness :
  miller_rabin 561 = Ret 1 <-> Z.prime 561.
Proof.
  apply (verdict_below_1024 561); lia.
Defined.

Lemma miller_rabin_even n :
  n mod 2 = 0 -> (miller_rabin n = Ret 1 <-> n = 2).
Proof.
  intros Hev. unfold miller_rabin.
  destruct (Z.ltb_spec n 2); [split; [discriminate | lia]|].
  destruct (Z.eqb_spec n 2) as [->|]; [split; reflexivity|].
  destruct (Z.eqb_spec n 3) as [->|]; [discriminate|].
  rewrite Hev. cbn [orb Z.eqb]. split; [discriminate | lia].
Qed.

(** X17: on even 64-bit inputs the verdict is right: it is [1] exactly
    when [n] is prime, that is for [n = 2] only. *)
Theorem verdict_even n :
  u64 n -> n mod 2 = 0 ->
  (miller_rabin n = Ret 1 <-> Z.prime n) /\
  (miller_rabin n = Ret 1 <-> n = 2).
Proof.
  intros Hn Hev. pose proof (miller_rabin_even n Hev) as H2.
  split; [|exact H2]. rewrite H2. split.
  - intros ->. exact Z.prime_2.
  - intros [H1 Hp].
    destruct (Z.eq_dec n 2) as [|Hne]; [assumption | exfalso].
    apply (Hp 2); [lia|]. apply Z.mod_divide; [lia | exact Hev].
Qed.

Lemma verdict_even_witness :
  (miller_rabin (2^64 - 2) = Ret 1 <-> Z.prime (2^64 - 2)) /\
  (miller_rabin (2^64 - 2) = Ret 1 <-> 2^64 - 2 = 2).
Proof.
  apply (verdict_even (2^64 - 2)); [u64_solve | reflexivity].
Defined.

(** X18: an odd 64-bit [n > 3] that gets the verdict [1] satisfies
    Fermat's congruence [b^(n-1) = 1] modulo [n] for every base
    [b <= n - 2] of the 12. *)
Theorem verdict_one_fermat n b :
  u64 n -> 3 < n -> n mod 2 = 1 ->
  miller_rabin n = Ret 1 -> In b a -> b <= n - 2 ->
  b ^ (n - 1) mod n = 1.
Proof.
  intros Hn Hn3 Hodd E Hin Hle.
  destruct (decompose_pred n Hn Hn3 Hodd) as (d & r & _ & Hr & Hd & Edr & Hd1).
  destruct (miller_rabin_char n d r) as [[_ H]|[E0 _]]; auto; try lia.
  - apply (strong_probable_prime_fermat n d r); auto; lia.
  - rewrite E in E0. discriminate.
Qed.

Lemma verdict_one_fermat_witness : 5 ^ (7919 - 1) mod 7919 = 1.
Proof.
  apply (verdict_one_fermat 7919 5);
    [u64_solve | lia | reflexivity | vm_compute; reflexivity
     | cbn; tauto | lia].
Defined.

(** X19: a 64-bit [n] that is a proper multiple of one of the 12 bases
    gets the verdict [0]. *)
Theorem multiple_of_base_rejected n b :
  u64 n -> In b a -> (b | n) -> n <> b -> miller_rabin n = Ret 0.
Proof.
  intros Hn Hin Hdiv Hne.
  pose proof (in_bases_ge_2 b Hin) as Hb.
  destruct (miller_rabin_returns n Hn) as [E|E]; [exact E | exfalso].
  destruct Hdiv as [k Hk].
  assert (Hk0 : k = 0 \/ 2 <= k) by (unfold u64 in Hn; nia).
  destruct Hk0 as [->|Hk2].
  { subst n. vm_compute in E. discriminate. }
  assert (Hn4 : b + 2 <= n) by nia.
  destruct (Z.eq_dec (n mod 2) 0) as [Hev|Hodd].
  - apply (miller_rabin_even n Hev) in E. lia.
  - pose proof (Z.mod_pos_bound n 2 ltac:(lia)) as Hbit.
    assert (Hn3 : 3 < n) by lia.
    assert (Hf : b ^ (n - 1) mod n = 1).
    { destruct (decompose_pred n Hn Hn3 ltac:(lia))
        as (d & r & _ & Hr & Hd & Edr & Hd1).
      destruct (miller_rabin_char n d r) as [[_ H]|[E0 _]]; auto; try lia.
      - apply (strong_probable_prime_fermat n d r); auto; try lia.
        apply H; auto; lia.
      - rewrite E in E0. discriminate. }
    assert (Hd1 : (b | 1)).
    { rewrite <- Hf. apply divide_pow_mod; [lia | now exists k | lia]. }
    apply Z.divide_1_r_nonneg in Hd1; lia.
Qed.

Lemma multiple_of_base_rejected_witness : miller_rabin 561 = Ret 0.
Proof.
  apply (multiple_of_base_rejected 561 3);
    [u64_solve | cbn; tauto | exists 187; reflexivity | lia].
Defined.

(** X20: Fermat's little theorem through [mod_pow]: for a 64-bit prime [p]
    and a 64-bit [x] that [p] does not divide, [mod_pow x (p - 1) p]
    returns [1], and [mod_pow x (p - 2) p] returns the inverse of [x]:
    its [mod_mul] with [x] returns [1]. *)
Theorem mod_pow_fermat p x :
  u64 p -> u64 x -> Z.prime p -> x mod p <> 0 ->
  mod_pow x (p - 1) p = Ret 1 /\
  (i <- mod_pow x (p - 2) p ;; mod_mul x i p) = Ret 1.
Proof.
  intros Hp Hx Hprime Hnz.
  pose proof (Z.prime_ge_2 p Hprime) as Hp2.
  pose proof (Z.fermat_nz p x Hprime Hnz) as Hf.
  assert (Hp1 : u64 (p - 1)) by (unfold u64 in *; lia).
  assert (Hp2' : u64 (p - 2)) by (unfold u64 in *; lia).
  rewrite !mod_pow_eq by (auto; lia). cbn [bind].
  destruct (Z.eqb_spec (p - 1) 0) as [|_]; [lia|].
  split; [now rewrite Hf|].
  assert (Hi : u64 (if p - 2 =? 0 then 1 else x ^ (p - 2) mod p)).
  { destruct (_ =? _); [u64_solve|].
    apply (u64_below _ p); auto. apply mod_bound. lia. }
  rewrite mod_mul_eq by (auto; try apply Hx; lia). f_equal.
  destruct (Z.eqb_spec (p - 2) 0) as [E|_].
  - replace (p - 1) with 1 in Hf by lia.
    now rewrite Z.mul_1_r, <- (Z.pow_1_r x).
  - rewrite Zmult_mod_idemp_r.
    replace (p - 1) with (1 + (p - 2)) in Hf by lia.
    now rewrite Z.pow_add_r, Z.pow_1_r in Hf by lia.
Qed.

Lemma mod_pow_fermat_witness :
  mod_pow 5 (7919 - 1) 7919 = Ret 1 /\
  (i <- mod_pow 5 (7919 - 2) 7919 ;; mod_mul 5 i 7919) = Ret 1.
Proof.
  apply (mod_pow_fermat 7919 5);
    [u64_solve | u64_solve | apply primeb_spec; vm_compute; reflexivity
     | vm_compute; discriminate].
Defined.
